(** * ROOT executors: a shallow embedding of [TNUMAExecutor], [TExecutor]
    and of the fit evaluators of [FitUtil.h].

    Source files:
    - core/imt/inc/ROOT/TNUMAExecutor.hxx (the NUMA executor, the executor
      facade [ROOT::Internal::TExecutor] and the [TThreadExecutor] alias);
    - math/mathcore/inc/Fit/FitUtil.h ([Evaluate<T>::EvalChi2], [EvalLogL]).

    C++ [unsigned] values are integers of [Z] with the 32-bit wrap-around
    written out; [std::vector] is [list]; a call that may throw is a
    computation of the monad [M] below, which threads the state of the
    executing thread (its CPU affinity and the log of work-function calls). *)

From Stdlib Require Import String.
From Stdlib Require Import List ZArith Lia Bool Permutation.
Import ListNotations.
Local Open Scope Z_scope.

Set Implicit Arguments.

(** ** Machine integers *)

Definition u32 (x : Z) : Z := x mod 2 ^ 32.
Definition u64 (x : Z) : Z := x mod 2 ^ 64.

(** ** Outcomes, thread state and the executor monad *)

(** What a C++ call can end with besides a value. [invalid_argument] is the
    [std::invalid_argument] of the facade's constructor, [work_failure] an
    exception thrown by a work function; [out_of_range], an access past the
    end of a [std::vector], and [null_dereference], the use of an empty
    [std::unique_ptr], are undefined behaviour in C++, made observable. *)
Inductive Exn : Type :=
| invalid_argument (what : string)
| work_failure (code : Z)
| out_of_range (index : Z)
| null_dereference.

Inductive Outcome (A : Type) : Type :=
| Ret (a : A)
| Throw (e : Exn).
Arguments Ret {A} a.
Arguments Throw {A} e.

(** CPU affinity of the executing thread: [numa_run_on_node(i)] pins it to
    node [i], [numa_run_on_node_mask(numa_all_nodes_ptr)] unpins it. *)
Inductive Affinity : Type :=
| AllNodes
| OnNode (node : Z).

(** The state a task runs in. [calls] logs the arguments the work function
    was invoked on, most recent first. *)
Record World (I : Type) : Type := mkWorld {
  affinity : Affinity;
  calls : list I
}.
Arguments mkWorld {I} affinity calls.

Definition M (I A : Type) : Type := World I -> Outcome A * World I.

Definition ret {I A} (a : A) : M I A := fun w => (Ret a, w).

Definition throw {I A} (e : Exn) : M I A := fun w => (Throw e, w).

Definition bind {I A B} (m : M I A) (k : A -> M I B) : M I B :=
  fun w => match m w with
           | (Ret a, w') => k a w'
           | (Throw e, w') => (Throw e, w')
           end.

Declare Scope exec_scope.
Delimit Scope exec_scope with exec.
Notation "x <- m ;; k" := (bind m (fun x => k))
  (at level 61, m at next level, right associativity) : exec_scope.
Notation "m ;;; k" := (bind m (fun _ => k))
  (at level 61, right associativity) : exec_scope.
Local Open Scope exec_scope.

(** Pointwise equality of computations. *)
Definition meq {I A} (m1 m2 : M I A) : Prop := forall w, m1 w = m2 w.
Infix "=~=" := meq (at level 70).

Definition log_call {I} (x : I) (w : World I) : World I :=
  mkWorld (affinity w) (x :: calls w).

Definition set_affinity {I} (a : Affinity) (w : World I) : World I :=
  mkWorld a (calls w).

(** One invocation of a side-effect-free work function [f] on [x]: the call
    is logged, and the function returns or throws. *)
Definition invoke {I R} (f : I -> Outcome R) (x : I) : M I R :=
  fun w => (f x, log_call x w).

(** [mapM] runs [f] on the items in order and collects the results; the first
    exception stops the loop and propagates. *)
Fixpoint mapM {I A B} (f : A -> M I B) (l : list A) : M I (list B) :=
  match l with
  | [] => ret []
  | x :: xs => y <- f x ;; ys <- mapM f xs ;; ret (y :: ys)
  end.

(** ** Work specifications *)

(** [Map(func, nTimes)] calls [func()] [nTimes] times: its items carry no
    data. *)
Definition nTimes_items (nTimes : Z) : list unit := repeat tt (Z.to_nat nTimes).

(** Modelled from the spec: [ROOT::TSeq<unsigned>] (ROOT/TSeq.hxx is not
    part of the sources), the integer sequence [[begin, end)]; it has no
    element when [end <= begin]. *)
Record TSeq : Type := mkTSeq { seq_begin : Z; seq_end : Z }.

(** [TSeq<unsigned>(n)] is [[0, n)]. *)
Definition TSeq_upto (n : Z) : TSeq := mkTSeq 0 n.

Definition TSeq_items (s : TSeq) : list Z :=
  map (fun k => seq_begin s + Z.of_nat k)
      (seq 0 (Z.to_nat (seq_end s - seq_begin s))).

(** ** The platform *)

(** What the executors read from the build and the machine. *)
Class Platform : Type := {
  (** the build macro [R__USE_IMT] *)
  R__USE_IMT : bool;
  (** [ROOT::IsImplicitMTEnabled()] *)
  IsImplicitMTEnabled : bool;
  (** [std::thread::hardware_concurrency()] *)
  hardware_concurrency : Z;
  (** [numa_max_node()] *)
  numa_max_node : Z;
  (** Modelled from the spec: the automatic chunk-count heuristic of the
      chunking strategy (pool size, total items), "a tuning knob". *)
  autoChunkCount : nat -> nat -> nat
}.

(** ** Chunking strategy *)

(** Modelled from the spec: section 4.1 (the pools' sources are not part of the
    sources). A positive chunk count, at most [totalItems]; the caller's
    hint when it is non-zero, the heuristic otherwise; zero chunks for no
    item. *)
Definition chunkCount {P : Platform} (poolSize totalItems hint : nat) : nat :=
  if (totalItems =? 0)%nat then 0%nat
  else Nat.min (Nat.max 1 (if (hint =? 0)%nat
                           then autoChunkCount poolSize totalItems
                           else hint))
               totalItems.

(** Modelled from the spec: section 4.1, the partition into [count] contiguous
    sub-ranges of [step] items, the last one absorbing the remainder. *)
Fixpoint partition_chunks {A} (count step : nat) (l : list A) : list (list A) :=
  match count with
  | O => []
  | S c => match c with
           | O => [l]
           | S _ => firstn step l :: partition_chunks c step (skipn step l)
           end
  end.

Definition chunks_of {P : Platform} {A} (poolSize hint : nat) (l : list A) : list (list A) :=
  let count := chunkCount poolSize (length l) hint in
  partition_chunks count (length l / count) l.

(** ** Reduction functions *)

(** Modelled from the spec: [TExecutorCRTP::Reduce] (ROOT/TExecutorCRTP.hxx
    is not part of the sources), "a single reduction pass over the full
    result sequence". *)
Definition Reduce {R} (objs : list R) (redfunc : list R -> R) : R := redfunc objs.

(** A reduction function in the sense of the spec's data model and glossary,
    an "associative combiner": reducing the chunks' partial results is
    reducing all the results ("chunk boundaries are invisible to a correct
    reduction"). *)
Class ReductionFunction {R} (redfunc : list R -> R) : Prop :=
  chunk_invariant :
    forall chunks : list (list R),
      redfunc (map redfunc chunks) = redfunc (concat chunks).

(** A reduction function that does not depend on the order of its
    arguments (the data model's "commutative-in-practice" combiner): the
    pools of the spec do not fix the order in which the partial values
    arrive. *)
Definition order_insensitive {R} (redfunc : list R -> R) : Prop :=
  forall objs objs' : list R, Permutation objs objs' -> redfunc objs = redfunc objs'.

(** [std::accumulate(objs.begin(), objs.end(), init, op)]. *)
Definition accumulate {R} (op : R -> R -> R) (init : R) (objs : list R) : R :=
  fold_left op objs init.

(** The integer sum the executors' documentation uses. *)
Definition sumZ (objs : list Z) : Z := accumulate Z.add 0 objs.

(** ** The backends *)

(** Modelled from the spec: section 4.2, [ROOT::TSequentialExecutor]
    (ROOT/TSequentialExecutor.hxx is not part of the sources). [Map] invokes
    [func] once per item, in order, in the calling thread; [MapReduce] is
    [Map] followed by one reduction pass. *)
Module TSequentialExecutor.
Inductive t : Type := mk.

Definition GetPoolSize (pool : t) : Z := 1.

Section Calls.
Context {I A R : Type}.

Definition Map (pool : t) (func : A -> M I R) (args : list A) : M I (list R) :=
  mapM func args.

Definition MapReduce (pool : t) (func : A -> M I R) (args : list A)
    (redfunc : list R -> R) : M I R :=
  objs <- Map pool func args ;; ret (Reduce objs redfunc).
End Calls.
End TSequentialExecutor.

(** Modelled from the spec: section 4.3, the thread pool [ROOT::TThreadExecutorImpl]
    (called [ROOT::TThreadExecutor] where the NUMA alias is off;
    ROOT/TThreadExecutorImpl.hxx is not part of the sources). [Map] without
    a reduction function gives one result per item in input order. The
    chunked [Map] partitions the items, runs each chunk in one task that
    folds its results with [redfunc], and gives one partial value per chunk;
    [MapReduce] combines the partial values with [redfunc]. The tasks are
    run here one after the other, in chunk order. *)
Module TThreadExecutorImpl.
Record t : Type := mk { fNThreads : Z }.

Section Calls.
Context {P : Platform} {I A R : Type}.

(** worker count, [0] meaning the hardware default *)
Definition GetPoolSize (pool : t) : Z :=
  if fNThreads pool =? 0 then hardware_concurrency else fNThreads pool.

Definition Map (pool : t) (func : A -> M I R) (args : list A) : M I (list R) :=
  mapM func args.

Definition MapChunked (pool : t) (func : A -> M I R) (args : list A)
    (redfunc : list R -> R) (nChunks : Z) : M I (list R) :=
  mapM (fun chunk => partial <- mapM func chunk ;; ret (Reduce partial redfunc))
       (chunks_of (Z.to_nat (GetPoolSize pool)) (Z.to_nat nChunks) args).

Definition MapReduce (pool : t) (func : A -> M I R) (args : list A)
    (redfunc : list R -> R) (nChunks : Z) : M I R :=
  objs <- MapChunked pool func args redfunc nChunks ;; ret (Reduce objs redfunc).
End Calls.
End TThreadExecutorImpl.

(** Modelled from the spec: section 4.4, [ROOT::TProcessExecutor]
    (ROOT/TProcessExecutor.hxx is not part of the sources), "the same
    external contract as the thread pool", each chunk in a worker process. *)
Module TProcessExecutor.
Record t : Type := mk { fNWorkers : Z }.

Section Calls.
Context {P : Platform} {I A R : Type}.

Definition GetPoolSize (pool : t) : Z :=
  if fNWorkers pool =? 0 then hardware_concurrency else fNWorkers pool.

Definition Map (pool : t) (func : A -> M I R) (args : list A) : M I (list R) :=
  mapM func args.

Definition MapChunked (pool : t) (func : A -> M I R) (args : list A)
    (redfunc : list R -> R) (nChunks : Z) : M I (list R) :=
  mapM (fun chunk => partial <- mapM func chunk ;; ret (Reduce partial redfunc))
       (chunks_of (Z.to_nat (GetPoolSize pool)) (Z.to_nat nChunks) args).

Definition MapReduce (pool : t) (func : A -> M I R) (args : list A)
    (redfunc : list R -> R) (nChunks : Z) : M I R :=
  objs <- MapChunked pool func args redfunc nChunks ;; ret (Reduce objs redfunc).
End Calls.
End TProcessExecutor.

(** ** The executor facade, [ROOT::Internal::TExecutor] *)

Inductive ExecutionPolicy : Type := kSerial | kMultithread | kMultiprocess.

(** [*ptr] on a [std::unique_ptr]. *)
Definition deref {I X} (ptr : option X) : M I X :=
  match ptr with
  | Some x => ret x
  | None => throw null_dereference
  end.

Module TExecutor.
(** The member [fThreadPool] exists under [R__USE_IMT] only; a pool that
    was not made is an empty pointer. The facade calls [Map] and
    [GetPoolSize] on [fThreadPool]: it is the thread pool, not the NUMA
    executor, which has neither. *)
Record t : Type := mk {
  fExecPolicy : ExecutionPolicy;
  fThreadPool : option TThreadExecutorImpl.t;
  fProcPool : option TProcessExecutor.t;
  fSeqPool : option TSequentialExecutor.t
}.

Section Facade.
Context {P : Platform}.

(** [TExecutor(ExecutionPolicy execPolicy, unsigned nProcessingUnits)]:
    without [R__USE_IMT] the case [kMultithread] is compiled out and the
    policy reaches [default]. *)
Definition ctor (execPolicy : ExecutionPolicy) (nProcessingUnits : Z) : Outcome t :=
  match execPolicy with
  | kSerial => Ret (mk kSerial None None (Some TSequentialExecutor.mk))
  | kMultithread =>
      if R__USE_IMT
      then Ret (mk kMultithread (Some (TThreadExecutorImpl.mk nProcessingUnits)) None None)
      else Throw (invalid_argument
             "kMultithread policy not available when ROOT is compiled with IMT=OFF.")
  | kMultiprocess => Ret (mk kMultiprocess None (Some (TProcessExecutor.mk nProcessingUnits)) None)
  end.

(** [TExecutor(unsigned nProcessingUnits = 0)] *)
Definition ctor_default (nProcessingUnits : Z) : Outcome t :=
  ctor (if IsImplicitMTEnabled then kMultithread else kSerial) nProcessingUnits.

Definition Policy (self : t) : ExecutionPolicy := fExecPolicy self.

Section Calls.
Context {I A R : Type}.

(** [Map(F func, std::vector<T> &args)]; the overloads for [nTimes],
    [TSeq] and [const std::vector] have the same switch. *)
Definition Map (self : t) (func : A -> M I R) (args : list A) : M I (list R) :=
  match fExecPolicy self with
  | kSerial =>
      pool <- deref (fSeqPool self) ;; TSequentialExecutor.Map pool func args
  | kMultithread =>
      if R__USE_IMT
      then pool <- deref (fThreadPool self) ;; TThreadExecutorImpl.Map pool func args
      else ret []
  | kMultiprocess =>
      pool <- deref (fProcPool self) ;; TProcessExecutor.Map pool func args
  end.

(** The protected [Map(F func, std::vector<T> &args, R redfunc,
    unsigned nChunks)]. *)
Definition MapChunked (self : t) (func : A -> M I R) (args : list A)
    (redfunc : list R -> R) (nChunks : Z) : M I (list R) :=
  match R__USE_IMT, fExecPolicy self with
  | true, kMultithread =>
      pool <- deref (fThreadPool self) ;;
      TThreadExecutorImpl.MapChunked pool func args redfunc nChunks
  | _, _ => Map self func args
  end.

(** [MapReduce(F func, std::vector<T> &args, R redfunc, unsigned nChunks)] *)
Definition MapReduce (self : t) (func : A -> M I R) (args : list A)
    (redfunc : list R -> R) (nChunks : Z) : M I R :=
  objs <- MapChunked self func args redfunc nChunks ;; ret (Reduce objs redfunc).
End Calls.

Section Overloads.
Context {I R : Type}.

(** [Map(F func, unsigned nTimes)] *)
Definition Map_nTimes (self : t) (func : M I R) (nTimes : Z) : M I (list R) :=
  Map self (fun _ : unit => func) (nTimes_items nTimes).

(** [Map(F func, ROOT::TSeq<INTEGER> args)] *)
Definition Map_seq (self : t) (func : Z -> M I R) (args : TSeq) : M I (list R) :=
  Map self func (TSeq_items args).

(** [Map(F func, unsigned nTimes, R redfunc, unsigned nChunks)] *)
Definition MapChunked_nTimes (self : t) (func : M I R) (nTimes : Z)
    (redfunc : list R -> R) (nChunks : Z) : M I (list R) :=
  MapChunked self (fun _ : unit => func) (nTimes_items nTimes) redfunc nChunks.

(** [Map(F func, ROOT::TSeq<INTEGER> args, R redfunc, unsigned nChunks)] *)
Definition MapChunked_seq (self : t) (func : Z -> M I R) (args : TSeq)
    (redfunc : list R -> R) (nChunks : Z) : M I (list R) :=
  MapChunked self func (TSeq_items args) redfunc nChunks.

(** [MapReduce(F func, unsigned nTimes, R redfunc, unsigned nChunks)] *)
Definition MapReduce_nTimes (self : t) (func : M I R) (nTimes : Z)
    (redfunc : list R -> R) (nChunks : Z) : M I R :=
  objs <- MapChunked_nTimes self func nTimes redfunc nChunks ;;
  ret (Reduce objs redfunc).

(** [MapReduce(F func, ROOT::TSeq<INTEGER> args, R redfunc, unsigned nChunks)] *)
Definition MapReduce_seq (self : t) (func : Z -> M I R) (args : TSeq)
    (redfunc : list R -> R) (nChunks : Z) : M I R :=
  objs <- MapChunked_seq self func args redfunc nChunks ;;
  ret (Reduce objs redfunc).
End Overloads.

(** [GetPoolSize()] *)
Definition GetPoolSize (self : t) : Z :=
  match fExecPolicy self with
  | kSerial =>
      match fSeqPool self with
      | Some pool => TSequentialExecutor.GetPoolSize pool
      | None => 0
      end
  | kMultithread =>
      match R__USE_IMT, fThreadPool self with
      | true, Some pool => TThreadExecutorImpl.GetPoolSize pool
      | _, _ => 0
      end
  | kMultiprocess =>
      match fProcPool self with
      | Some pool => TProcessExecutor.GetPoolSize pool
      | None => 0
      end
  end.
End Facade.
End TExecutor.

(** ** The NUMA executor, [ROOT::Experimental::TNUMAExecutor] *)

(** A [std::span] over a vector, as the offsets [[first, last)] of its ends
    from the vector's start. *)
Definition Span : Type := (Z * Z)%type.

Definition span_items {T} (vec : list T) (s : Span) : list T :=
  firstn (Z.to_nat (snd s - fst s)) (skipn (Z.to_nat (fst s)) vec).

(** [numa_run_on_node(i)] *)
Definition numa_run_on_node {I} (i : Z) : M I unit :=
  fun w => (Ret tt, set_affinity (OnNode i) w).

(** [numa_run_on_node_mask(numa_all_nodes_ptr)] *)
Definition numa_run_on_all_nodes {I} : M I unit :=
  fun w => (Ret tt, set_affinity AllNodes w).

Module TNUMAExecutor.
Record t : Type := mk { fNDomains : Z; fDomainNThreads : Z }.

Section NUMA.
Context {P : Platform}.

(** Modelled from the spec: [RTaskArenaWrapper::TaskArenaSize()]
    (ROOT/RTaskArena.hxx is not part of the sources), the requested
    worker count, [0] meaning the hardware default. *)
Definition TaskArenaSize (nThreads : Z) : Z :=
  if nThreads =? 0 then hardware_concurrency else nThreads.

(** [TNUMAExecutor(unsigned nThreads = 0u)] *)
Definition ctor (nThreads : Z) : t :=
  let nDomains := u32 (numa_max_node + 1) in
  mk nDomains (TaskArenaSize nThreads / nDomains).

(** [TNUMAExecutor(unsigned nThreads)] of the later version of the file,
    which divides the requested thread count itself. *)
Definition ctor_nThreads (nThreads : Z) : t :=
  let nDomains := u32 (numa_max_node + 1) in
  mk nDomains (u32 nThreads / nDomains).

Definition GetNUMADomains (self : t) : Z := fNDomains self.

(** The loop of [splitData]: [i] and the spans pushed so far. It runs
    while [i*stride < av.size()-stride], the left side an [unsigned], the
    right side a [std::size_t]; [None] when [fuel] iterations were not
    enough. *)
Fixpoint splitData_loop (fuel : nat) (size stride i : Z) (v : list Span)
    : option (Z * list Span) :=
  match fuel with
  | O => None
  | S fuel' =>
      if u32 (i * stride) <? u64 (size - stride)
      then splitData_loop fuel' size stride (u32 (i + 1))
             (v ++ [(u32 (i * stride), u32 ((i + 1) * stride))])
      else Some (i, v)
  end.

(** [splitData(std::vector<T> &vec)], on the size of the vector. *)
Definition splitSpans (self : t) (fuel : nat) (size : Z) : option (list Span) :=
  let nToProcess := u32 size in
  let stride := u32 (nToProcess + fNDomains self - 1) / fNDomains self in
  match splitData_loop fuel size stride 0 [] with
  | Some (i, v) => Some (v ++ [(u32 (i * stride), size)])
  | None => None
  end.

Definition splitData {T} (self : t) (fuel : nat) (vec : list T)
    : option (list (list T)) :=
  option_map (map (span_items vec)) (splitSpans self fuel (Z.of_nat (length vec))).

Section Calls.
Context {I R : Type}.

(** The lambda [runOnNode] of [MapReduce(F func, unsigned nTimes,
    R redfunc, unsigned nChunks)]. *)
Definition runOnNode_nTimes (self : t) (func : M I R) (nTimes : Z)
    (redfunc : list R -> R) (nChunks : Z) (i : Z) : M I R :=
  numa_run_on_node i ;;;
  let threadExecutor := TThreadExecutorImpl.mk (fDomainNThreads self) in
  res <- (if negb (nChunks =? 0)
          then TThreadExecutorImpl.MapReduce threadExecutor (fun _ : unit => func)
                 (nTimes_items nTimes) redfunc (nChunks / fNDomains self)
          else TThreadExecutorImpl.MapReduce threadExecutor (fun _ : unit => func)
                 (nTimes_items nTimes) redfunc 0) ;;
  numa_run_on_all_nodes ;;;
  ret res.

(** [MapReduce(F func, unsigned nTimes, R redfunc, unsigned nChunks)] *)
Definition MapReduce_nTimes (self : t) (func : M I R) (nTimes : Z)
    (redfunc : list R -> R) (nChunks : Z) : M I R :=
  let processExecutor := TProcessExecutor.mk (fNDomains self) in
  TProcessExecutor.MapReduce processExecutor
    (runOnNode_nTimes self func nTimes redfunc nChunks)
    (TSeq_items (TSeq_upto (fNDomains self))) redfunc 0.

(** The lambda [runOnNode] of [MapReduce(F func, std::vector<T> &args,
    R redfunc, unsigned nChunks)]; [dataRanges[i]] past the end of
    [dataRanges] is [out_of_range]. *)
Definition runOnNode_vec {T} (self : t) (func : T -> M I R)
    (dataRanges : list (list T)) (redfunc : list R -> R) (nChunks : Z) (i : Z)
    : M I R :=
  numa_run_on_node i ;;;
  let threadExecutor := TThreadExecutorImpl.mk (fDomainNThreads self) in
  res <- (range <- match nth_error dataRanges (Z.to_nat i) with
                   | Some range => ret range
                   | None => throw (out_of_range i)
                   end ;;
          if negb (nChunks =? 0)
          then TThreadExecutorImpl.MapReduce threadExecutor func range redfunc
                 (nChunks / fNDomains self)
          else TThreadExecutorImpl.MapReduce threadExecutor func range redfunc 0) ;;
  numa_run_on_all_nodes ;;;
  ret res.

(** [MapReduce(F func, std::vector<T> &args, R redfunc, unsigned
    nChunks)]; [None] when [splitData] does not return within [fuel]
    iterations. *)
Definition MapReduce_vec {T} (self : t) (fuel : nat) (func : T -> M I R)
    (args : list T) (redfunc : list R -> R) (nChunks : Z) : option (M I R) :=
  match splitData self fuel args with
  | Some dataRanges =>
      let processExecutor := TProcessExecutor.mk (fNDomains self) in
      Some (TProcessExecutor.MapReduce processExecutor
              (runOnNode_vec self func dataRanges redfunc nChunks)
              (TSeq_items (TSeq_upto (fNDomains self))) redfunc 0)
  | None => None
  end.

(** The sub-sequence of domain [i] in [MapReduce(F func,
    ROOT::TSeq<INTEGER> args, R redfunc, unsigned nChunks)]. *)
Definition seq_stride (self : t) (args : TSeq) : Z :=
  u32 (seq_end args - seq_begin args + fNDomains self - 1) / fNDomains self.

Definition domain_sequence (self : t) (args : TSeq) (i : Z) : TSeq :=
  let stride := seq_stride self args in
  mkTSeq (Z.max (seq_begin args) (u32 (i * stride)))
         (Z.min (u32 ((i + 1) * stride)) (seq_end args)).

(** The lambda [runOnNode] of the [TSeq] overload. *)
Definition runOnNode_seq (self : t) (func : Z -> M I R) (args : TSeq)
    (redfunc : list R -> R) (nChunks : Z) (i : Z) : M I R :=
  numa_run_on_node i ;;;
  let threadExecutor := TThreadExecutorImpl.mk (fDomainNThreads self) in
  let sequence := domain_sequence self args i in
  res <- TThreadExecutorImpl.MapReduce threadExecutor func (TSeq_items sequence)
           redfunc (nChunks / fNDomains self) ;;
  numa_run_on_all_nodes ;;;
  ret res.

(** [MapReduce(F func, ROOT::TSeq<INTEGER> args, R redfunc, unsigned
    nChunks)] *)
Definition MapReduce_seq (self : t) (func : Z -> M I R) (args : TSeq)
    (redfunc : list R -> R) (nChunks : Z) : M I R :=
  let processExecutor := TProcessExecutor.mk (fNDomains self) in
  TProcessExecutor.MapReduce processExecutor
    (runOnNode_seq self func args redfunc nChunks)
    (TSeq_items (TSeq_upto (fNDomains self))) redfunc 0.
End Calls.
End NUMA.
End TNUMAExecutor.

(** ** The fit evaluators, [ROOT::Fit::FitUtil::Evaluate<T>] *)

(** The arithmetic of the vector type [T] and of [double], kept abstract:
    the evaluators are verified for what they do around it. *)
Class Arith (T D : Type) : Type := {
  (** [vecCore::VectorSize<T>()] *)
  VectorSize : Z;
  (** [T{}] *)
  vzero : T;
  vadd : T -> T -> T;
  vmul : T -> T -> T;
  (** the sum of the lanes of a vector, from [0.] *)
  lanes_sum : T -> D;
  dzero : D;
  dadd : D -> D -> D;
  dneg : D -> D;
  dmul : D -> D -> D;
  ddiv : D -> D -> D
}.

(** [LikelihoodAux<T>] *)
Record LikelihoodAux (T : Type) : Type := mkLikelihoodAux {
  logvalue : T;
  weight : T;
  weight2 : T
}.

Module FitUtil.
(** [Error(location, msg)] and [MATH_ERROR_MSG(location, msg)] report a
    message and return. *)
Record FitState : Type := mkFitState {
  nPoints : Z;
  errors : list (string * string)
}.

Definition Error (location msg : string) (st : FitState) : FitState :=
  mkFitState (nPoints st) (errors st ++ [(location, msg)]).

Definition set_nPoints (v : Z) (st : FitState) : FitState :=
  mkFitState v (errors st).

(** [nPoints++], [count] times. *)
Definition count_points (count : Z) (st : FitState) : FitState :=
  set_nPoints (u32 (nPoints st + count)) st.

(** What the evaluators read from [UnBinData] and [BinData]. *)
Record UnBinData : Type := mkUnBinData {
  (** [data.Size()] *)
  ub_Size : Z;
  (** [data.Range().Size()] *)
  ub_RangeSize : Z
}.

Record BinData : Type := mkBinData {
  b_Size : Z;
  (** [data.Opt().fExpErrors] and [data.Opt().fIntegral] *)
  fExpErrors : bool;
  fIntegral : bool
}.

(** What the evaluators compute from the model function and the data
    points, kept abstract. *)
Record Model (T D : Type) : Type := mkModel {
  (** [ROOT::Math::Util::EvalLog(func(&x, p))] at point [i * vecSize] *)
  logval_at : Z -> T;
  (** the weights loaded from [data.WeightsPtr(i)], or [1] *)
  weight_at : Z -> T;
  (** the clamped squared residual of [EvalChi2]'s [mapFunction] *)
  chi2_at : Z -> T;
  (** [func(&xmin_v, p).sum() != 0 || func(&xmax_v, p).sum() != 0] *)
  nonzero_at_infinity : bool;
  (** [igEval.Integral] over the range [ir] and over [(-inf, +inf)] *)
  integral_range : Z -> D;
  integral_all : D
}.

Definition policy_unknown : string :=
  "Execution policy unknown. Avalaible choices:
 0: Serial (default)
 1: MultiThread
 2: MultiProcess".

Section Evaluate.
Context {P : Platform} {T D : Type} {Ar : Arith T D}.

(** [setAutomaticChunking], declared in FitUtil.h and defined outside
    the sources. *)
Variable setAutomaticChunking : Z -> Z.

Definition laux_add (l1 l2 : LikelihoodAux T) : LikelihoodAux T :=
  mkLikelihoodAux (vadd (logvalue l1) (logvalue l2))
                  (vadd (weight l1) (weight l2))
                  (vadd (weight2 l1) (weight2 l2)).

Definition laux_zero : LikelihoodAux T := mkLikelihoodAux vzero vzero vzero.

(** The value of [EvalLogL]'s [mapFunction] at [i]; its effect is
    [nPoints++]. *)
Definition logl_mapValue (func : Model T D) (iWeight : Z) (extended : bool)
    (i : Z) : LikelihoodAux T :=
  let logval := logval_at func i in
  if 0 <? iWeight then
    let weight := weight_at func i in
    let logval := vmul logval weight in
    if iWeight =? 2 then
      let logval := vmul logval weight in
      if negb extended
      then mkLikelihoodAux logval weight (vmul weight weight)
      else mkLikelihoodAux logval vzero vzero
    else mkLikelihoodAux logval vzero vzero
  else mkLikelihoodAux logval vzero vzero.

(** A work function whose effect is [nPoints++] runs in a pool as a
    logged call: [nPoints] grows by the number of calls logged. *)
Definition run_counted {R} (call : M Z R) (st : FitState) : Outcome R * FitState :=
  match call (mkWorld AllNodes []) with
  | (res, w) => (res, count_points (Z.of_nat (length (calls w))) st)
  end.

(** The reduced sums of [EvalLogL] by execution policy; [ROOT::
    TThreadExecutor] is the alias of [TNUMAExecutor]. *)
Definition logl_sums (func : Model T D) (data : UnBinData) (iWeight : Z)
    (extended : bool) (executionPolicy nChunks : Z) (st : FitState)
    : Outcome (LikelihoodAux T) * FitState :=
  let n := ub_Size data in
  let mapValue := logl_mapValue func iWeight extended in
  if executionPolicy =? 0 then
    let items := TSeq_items (TSeq_upto (n / VectorSize)) in
    (Ret (fold_left laux_add (map mapValue items) laux_zero),
     count_points (Z.of_nat (length items)) st)
  else if executionPolicy =? 1 then
    let chunks := if negb (nChunks =? 0) then nChunks
                  else setAutomaticChunking (ub_Size data / VectorSize) in
    let pool := TNUMAExecutor.ctor 4 in
    run_counted
      (TNUMAExecutor.MapReduce_seq pool (invoke (fun i => Ret (mapValue i)))
         (mkTSeq 0 (ub_Size data / VectorSize))
         (accumulate laux_add laux_zero) chunks) st
  else if executionPolicy =? 2 then
    (Ret laux_zero, st)
  else
    (Ret laux_zero, Error "FitUtil::EvaluateLogL" policy_unknown st).

(** [nuTot] of the extended term, [None] on the early [return 0]. *)
Definition logl_nuTot (func : Model T D) (data : UnBinData) : option D :=
  if 0 <? ub_RangeSize data then
    Some (fold_left (fun nuTot ir => dadd nuTot (integral_range func ir))
                    (TSeq_items (TSeq_upto (ub_RangeSize data))) dzero)
  else if nonzero_at_infinity func then None
  else Some (integral_all func).

(** [Evaluate<T>::EvalLogL]; [normalizeFunc] is the constant [false]. *)
Definition EvalLogL (func : Model T D) (data : UnBinData) (iWeight : Z)
    (extended : bool) (executionPolicy nChunks : Z) (st : FitState)
    : Outcome D * FitState :=
  match logl_sums func data iWeight extended executionPolicy nChunks st with
  | (Throw e, st1) => (Throw e, st1)
  | (Ret sums, st1) =>
      let logl := lanes_sum (logvalue sums) in
      let sumW := lanes_sum (weight sums) in
      let sumW2 := lanes_sum (weight2 sums) in
      if extended then
        match logl_nuTot func data with
        | None =>
            (Ret dzero,
             Error "FitUtil::EvaluateLogLikelihood"
               "A range has not been set and the function is not zero at +/- inf" st1)
        | Some nuTot =>
            let extendedTerm :=
              if negb (iWeight =? 2) then dneg nuTot
              else dneg (dmul (ddiv sumW2 sumW) nuTot) in
            (Ret (dneg (dadd logl extendedTerm)), set_nPoints 0 st1)
        end
      else (Ret (dneg logl), set_nPoints 0 st1)
  end.

(** The reduced sum of [EvalChi2] by execution policy. *)
Definition chi2_sum (func : Model T D) (data : BinData)
    (executionPolicy nChunks : Z) (st : FitState) : Outcome T * FitState :=
  if executionPolicy =? 0 then
    let items := TSeq_items (TSeq_upto (b_Size data / VectorSize)) in
    (Ret (fold_left vadd (map (chi2_at func) items) vzero),
     count_points (Z.of_nat (length items)) st)
  else if executionPolicy =? 1 then
    let chunks := if negb (nChunks =? 0) then nChunks
                  else setAutomaticChunking (b_Size data / VectorSize) in
    let pool := TNUMAExecutor.ctor 0 in
    run_counted
      (TNUMAExecutor.MapReduce_seq pool (invoke (fun i => Ret (chi2_at func i)))
         (mkTSeq 0 (b_Size data / VectorSize))
         (accumulate vadd vzero) chunks) st
  else
    (Ret vzero, Error "FitUtil::EvaluateChi2" policy_unknown st).

(** [Evaluate<T>::EvalChi2] *)
Definition EvalChi2 (func : Model T D) (data : BinData)
    (executionPolicy nChunks : Z) (st : FitState) : Outcome D * FitState :=
  let n := b_Size data in
  let st := set_nPoints 0 st in
  let st := if fExpErrors data || fIntegral data || fExpErrors data
            then Error "FitUtil::EvaluateChi2"
                   "The vectorized implementation doesn't support Integrals, BinVolume or ExpErrors
. Aborting operation." st
            else st in
  match chi2_sum func data executionPolicy nChunks st with
  | (Throw e, st1) => (Throw e, st1)
  | (Ret res, st1) => (Ret (lanes_sum res), set_nPoints n st1)
  end.
End Evaluate.
End FitUtil.

(** ** Vocabulary of the properties *)

(** The state after the steps [step x] of the items [l], in order. *)
Definition steps {I A} (step : A -> World I -> World I) (l : list A) (w : World I)
    : World I :=
  fold_left (fun w x => step x w) l w.

(** What one domain task of the [nTimes] overload does to the thread: pinned,
    all [nTimes] calls, unpinned. *)
Definition domain_step_nTimes (nTimes : Z) (i : Z) (w : World unit) : World unit :=
  set_affinity AllNodes
    (steps (fun _ w => log_call tt w) (nTimes_items nTimes)
           (set_affinity (OnNode i) w)).

(** The items of domain [i] in the [TSeq] overload. *)
Definition domain_items (numa : TNUMAExecutor.t) (args : TSeq) (i : Z) : list Z :=
  TSeq_items (TNUMAExecutor.domain_sequence numa args i).

(** The value and the effect of the domain task [i] of the [TSeq] overload
    for a work function that returns [g] of its argument. *)
Definition domain_value_seq {P : Platform} {R} (numa : TNUMAExecutor.t) (g : Z -> R)
    (args : TSeq) (redfunc : list R -> R) (nChunks : Z) (i : Z) : R :=
  redfunc (map (fun chunk => redfunc (map g chunk))
               (chunks_of (Z.to_nat (TThreadExecutorImpl.GetPoolSize
                             (TThreadExecutorImpl.mk (TNUMAExecutor.fDomainNThreads numa))))
                          (Z.to_nat (nChunks / TNUMAExecutor.fNDomains numa))
                          (domain_items numa args i))).

Definition domain_step_seq (numa : TNUMAExecutor.t) (args : TSeq) (i : Z)
    (w : World Z) : World Z :=
  set_affinity AllNodes
    (steps log_call (domain_items numa args i) (set_affinity (OnNode i) w)).

(** [chain a spans c]: the spans are non-empty and contiguous, each one
    starting where the one before it ends, from offset [a] to offset [c];
    so they are in input order and pairwise disjoint. *)
Inductive chain : Z -> list Span -> Z -> Prop :=
| chain_nil (a : Z) : chain a [] a
| chain_cons (a b c : Z) (rest : list Span) :
    a < b -> chain b rest c -> chain a ((a, b) :: rest) c.

(** The call of [EvalLogL] takes the early [return 0] of the extended term. *)
Definition early_return {T D} (func : FitUtil.Model T D) (data : FitUtil.UnBinData)
    (extended : bool) : bool :=
  extended && negb (0 <? FitUtil.ub_RangeSize data) && FitUtil.nonzero_at_infinity func.

(** [k] spans of [stride] elements from offset 0, the last one cut at
    [size]. *)
Definition stride_spans (stride k size : Z) : list Span :=
  map (fun j => (j * stride, j * stride + stride)) (TSeq_items (TSeq_upto (k - 1)))
  ++ [((k - 1) * stride, size)].

(** The value of the domain task of the vector overload on its range, for a
    work function that returns [g] of its argument. *)
Definition vec_domain_value {P : Platform} {R T} (self : TNUMAExecutor.t) (g : T -> R)
    (redfunc : list R -> R) (nChunks : Z) (range : list T) : R :=
  let poolSize := Z.to_nat (TThreadExecutorImpl.GetPoolSize
                    (TThreadExecutorImpl.mk (TNUMAExecutor.fDomainNThreads self))) in
  redfunc (map (fun chunk => redfunc (map g chunk))
               (chunks_of poolSize
                  (Z.to_nat (if negb (nChunks =? 0)
                             then nChunks / TNUMAExecutor.fNDomains self else 0))
                  range)).

(** [x] is an index of the sequence [[begin, end)]. *)
Definition seq_contains (s : TSeq) (x : Z) : Prop := seq_begin s <= x < seq_end s.

(** A sequence whose end lies below its begin. *)
Definition seq_inverted (s : TSeq) : Prop := seq_end s < seq_begin s.

(** ** Examples of platforms and executors *)

(** A two-node machine with eight cores, built with [R__USE_IMT]. *)
Definition two_node_machine : Platform := {|
  R__USE_IMT := true;
  IsImplicitMTEnabled := true;
  hardware_concurrency := 8;
  numa_max_node := 1;
  autoChunkCount := fun poolSize totalItems => (4 * poolSize)%nat
|}.

(** A build without [R__USE_IMT] on a single-node machine. *)
Definition no_imt_machine : Platform := {|
  R__USE_IMT := false;
  IsImplicitMTEnabled := false;
  hardware_concurrency := 4;
  numa_max_node := 0;
  autoChunkCount := fun poolSize totalItems => (4 * poolSize)%nat
|}.

Definition w0 {I} : World I := mkWorld AllNodes [].

(** An exact integer stand-in for the vector and [double] arithmetic, with
    one lane, to run the evaluators on examples. *)
Definition Z_Arith : Arith Z Z := {|
  VectorSize := 1;
  vzero := 0;
  vadd := Z.add;
  vmul := Z.mul;
  lanes_sum := fun x => x;
  dzero := 0;
  dadd := Z.add;
  dneg := Z.opp;
  dmul := Z.mul;
  ddiv := Z.div
|}.

Definition serial_executor : TExecutor.t :=
  TExecutor.mk kSerial None None (Some TSequentialExecutor.mk).

Definition multithread_executor : TExecutor.t :=
  TExecutor.mk kMultithread (Some (TThreadExecutorImpl.mk 0)) None None.

Definition multiprocess_executor : TExecutor.t :=
  TExecutor.mk kMultiprocess None (Some (TProcessExecutor.mk 0)) None.

(** * Properties *)

(** ** Machine integers *)

Lemma u32_small (x : Z) : 0 <= x < 2 ^ 32 -> u32 x = x.
Proof. intros H. unfold u32. now apply Z.mod_small. Qed.

Lemma u64_small (x : Z) : 0 <= x < 2 ^ 64 -> u64 x = x.
Proof. intros H. unfold u64. now apply Z.mod_small. Qed.

Lemma u32_range (x : Z) : 0 <= u32 x < 2 ^ 32.
Proof. unfold u32. apply Z.mod_pos_bound. reflexivity. Qed.

(** ** Library: laws of the monad and of [mapM] *)

Lemma bind_ret_l {I A B} (a : A) (k : A -> M I B) : bind (ret a) k =~= k a.
Proof. intros w. reflexivity. Qed.

Lemma bind_ret_r {I A} (m : M I A) : bind m ret =~= m.
Proof. intros w. unfold bind, ret. destruct (m w) as [[a|e] w']; reflexivity. Qed.

Lemma bind_assoc {I A B C} (m : M I A) (k : A -> M I B) (h : B -> M I C) :
  bind (bind m k) h =~= bind m (fun a => bind (k a) h).
Proof. intros w. unfold bind. destruct (m w) as [[a|e] w']; reflexivity. Qed.

Lemma bind_ext {I A B} (m1 m2 : M I A) (k1 k2 : A -> M I B) :
  m1 =~= m2 -> (forall a, k1 a =~= k2 a) -> bind m1 k1 =~= bind m2 k2.
Proof.
  intros Hm Hk w. unfold bind. rewrite Hm.
  destruct (m2 w) as [[a|e] w']; [apply Hk | reflexivity].
Qed.

Lemma meq_refl {I A} (m : M I A) : m =~= m.
Proof. intros w. reflexivity. Qed.

Lemma meq_sym {I A} (m1 m2 : M I A) : m1 =~= m2 -> m2 =~= m1.
Proof. intros H w. symmetry. apply H. Qed.

Lemma meq_trans {I A} (m1 m2 m3 : M I A) : m1 =~= m2 -> m2 =~= m3 -> m1 =~= m3.
Proof. intros H1 H2 w. rewrite H1. apply H2. Qed.

Lemma mapM_ext {I A B} (f g : A -> M I B) (l : list A) :
  (forall x, f x =~= g x) -> mapM f l =~= mapM g l.
Proof.
  intros H. induction l as [|x xs IH]; simpl.
  - apply meq_refl.
  - apply bind_ext; [apply H|]. intros y.
    apply bind_ext; [apply IH|]. intros ys. apply meq_refl.
Qed.

Lemma mapM_app {I A B} (f : A -> M I B) (l1 l2 : list A) :
  mapM f (l1 ++ l2) =~= (ys1 <- mapM f l1 ;; ys2 <- mapM f l2 ;; ret (ys1 ++ ys2)).
Proof.
  induction l1 as [|x xs IH]; intros w; simpl.
  - unfold bind, ret. destruct (mapM f l2 w) as [[ys|e] w']; reflexivity.
  - unfold bind at 1 3 4. destruct (f x w) as [[y|e] w1]; [|reflexivity].
    unfold bind at 1. rewrite (IH w1). unfold bind, ret.
    destruct (mapM f xs w1) as [[ys1|e] w2]; [|reflexivity].
    destruct (mapM f l2 w2) as [[ys2|e] w3]; reflexivity.
Qed.

(** Running each chunk's loop and reducing it at once gives the same
    effects and failures as running every loop first. *)
Lemma mapM_then_map {I A B C} (f : A -> M I B) (g : B -> C) (l : list A) :
  mapM (fun x => y <- f x ;; ret (g y)) l =~= (ys <- mapM f l ;; ret (map g ys)).
Proof.
  induction l as [|x xs IH]; intros w; simpl.
  - reflexivity.
  - unfold meq, bind, ret in *. destruct (f x w) as [[y|e] w1]; [|reflexivity].
    rewrite IH. destruct (mapM f xs w1) as [[ys|e] w2]; reflexivity.
Qed.

(** One loop over a concatenation is the loops over the pieces in turn. *)
Lemma mapM_concat {I A B} (f : A -> M I B) (ls : list (list A)) :
  mapM f (concat ls) =~= (yss <- mapM (mapM f) ls ;; ret (concat yss)).
Proof.
  induction ls as [|l ls IH]; intros w; simpl.
  - reflexivity.
  - rewrite mapM_app. unfold meq, bind, ret in *.
    destruct (mapM f l w) as [[ys|e] w1]; [|reflexivity].
    rewrite IH. destruct (mapM (mapM f) ls w1) as [[yss|e] w2]; reflexivity.
Qed.

(** ** Chunking and reduction functions *)

Lemma partition_chunks_concat {A} (count step : nat) (l : list A) :
  (count = 0%nat -> l = []) -> concat (partition_chunks count step l) = l.
Proof.
  revert l. induction count as [|c IH]; intros l H; simpl.
  - symmetry. now apply H.
  - destruct c as [|c'].
    + simpl. apply app_nil_r.
    + change (firstn step l ++ concat (partition_chunks (S c') step (skipn step l)) = l).
      rewrite IH by discriminate. apply firstn_skipn.
Qed.

Lemma chunkCount_zero {P : Platform} (poolSize totalItems hint : nat) :
  chunkCount poolSize totalItems hint = 0%nat -> totalItems = 0%nat.
Proof.
  unfold chunkCount. destruct (Nat.eqb_spec totalItems 0) as [E|E]; [easy|].
  intros H. lia.
Qed.

Lemma chunkCount_bounds {P : Platform} (poolSize totalItems hint : nat) :
  (0 < totalItems)%nat ->
  (1 <= chunkCount poolSize totalItems hint <= totalItems)%nat.
Proof.
  intros H. unfold chunkCount.
  destruct (Nat.eqb_spec totalItems 0) as [E|E]; lia.
Qed.

Lemma chunks_of_concat {P : Platform} {A} (poolSize hint : nat) (l : list A) :
  concat (chunks_of poolSize hint l) = l.
Proof.
  unfold chunks_of. apply partition_chunks_concat.
  intros H. apply chunkCount_zero in H. now apply length_zero_iff_nil.
Qed.

Lemma chunks_of_nil {P : Platform} {A} (poolSize hint : nat) :
  chunks_of poolSize hint (@nil A) = [].
Proof. reflexivity. Qed.

Section Accumulate.
Variables (R : Type) (op : R -> R -> R) (init : R).
Hypothesis op_assoc : forall x y z, op x (op y z) = op (op x y) z.
Hypothesis init_l : forall x, op init x = x.
Hypothesis init_r : forall x, op x init = x.

Lemma fold_left_start (l : list R) (a : R) :
  fold_left op l a = op a (fold_left op l init).
Proof.
  revert a. induction l as [|x xs IH]; intros a; simpl.
  - now rewrite init_r.
  - rewrite IH, (IH (op init x)), init_l. symmetry. apply op_assoc.
Qed.

Lemma accumulate_app (l1 l2 : list R) :
  accumulate op init (l1 ++ l2) = op (accumulate op init l1) (accumulate op init l2).
Proof. unfold accumulate. rewrite fold_left_app. apply fold_left_start. Qed.

Lemma accumulate_ReductionFunction : ReductionFunction (accumulate op init).
Proof.
  intros chunks. induction chunks as [|c cs IH]; simpl.
  - reflexivity.
  - rewrite accumulate_app, <- IH. unfold accumulate at 1. simpl.
    rewrite fold_left_start, init_l. reflexivity.
Qed.
End Accumulate.

#[export] Instance sumZ_ReductionFunction : ReductionFunction sumZ.
Proof. apply accumulate_ReductionFunction; intros; lia. Qed.

(** The fold of an associative and commutative operation does not depend
    on the order of the items. *)
Lemma accumulate_order_insensitive {R} (op : R -> R -> R) (init : R) :
  (forall x y z, op x (op y z) = op (op x y) z) ->
  (forall x y, op x y = op y x) ->
  order_insensitive (accumulate op init).
Proof.
  intros Hassoc Hcomm l l' Hperm. unfold accumulate. generalize init.
  induction Hperm as [|x l l' _ IH|x y l|l l' l'' _ IH1 _ IH2]; intros a; cbn [fold_left].
  - reflexivity.
  - apply IH.
  - f_equal. rewrite <- !Hassoc. f_equal. apply Hcomm.
  - now rewrite IH1.
Qed.

Lemma sumZ_order_insensitive : order_insensitive sumZ.
Proof. apply accumulate_order_insensitive; intros; lia. Qed.

Lemma sumZ_repeat (v : Z) (n : nat) : sumZ (repeat v n) = Z.of_nat n * v.
Proof.
  unfold sumZ, accumulate. induction n as [|n IH].
  - reflexivity.
  - cbn [repeat fold_left]. rewrite (@fold_left_start Z Z.add 0) by (intros; lia).
    rewrite IH. lia.
Qed.

Example ctor_without_imt :
  TExecutor.ctor (P := no_imt_machine) kMultithread 0
  = Throw (invalid_argument
             "kMultithread policy not available when ROOT is compiled with IMT=OFF.")
  /\ TExecutor.ctor_default (P := no_imt_machine) 0 = Ret serial_executor.
Proof. split; reflexivity. Qed.

Example numa_ten_ones :
  let numa := TNUMAExecutor.ctor (P := two_node_machine) 8 in
  TNUMAExecutor.MapReduce_nTimes (P := two_node_machine) numa
    (invoke (fun _ : unit => Ret 1) tt) 10 sumZ 0 w0
  = (Ret 20, mkWorld AllNodes (repeat tt 20)).
Proof. vm_compute. reflexivity. Qed.

(** ** The pools against the sequential executor *)

Section PoolEquivalence.
Context {P : Platform} {I A R : Type}.
Variables (func : A -> M I R) (redfunc : list R -> R).

(** The chunk-then-reduce algorithm, over any partition of the items. *)
Lemma chunked_reduce_unfold (chunks : list (list A)) :
  (objs <- mapM (fun chunk => partial <- mapM func chunk ;;
                              ret (Reduce partial redfunc)) chunks ;;
   ret (Reduce objs redfunc))
  =~= (yss <- mapM (mapM func) chunks ;; ret (redfunc (map redfunc yss))).
Proof.
  eapply meq_trans.
  - apply bind_ext; [apply mapM_then_map | intros; apply meq_refl].
  - eapply meq_trans; [apply bind_assoc|].
    apply bind_ext; [apply meq_refl|]. intros yss w. reflexivity.
Qed.

Lemma chunked_reduce_sequential `{!ReductionFunction redfunc} (chunks : list (list A)) :
  (objs <- mapM (fun chunk => partial <- mapM func chunk ;;
                              ret (Reduce partial redfunc)) chunks ;;
   ret (Reduce objs redfunc))
  =~= (objs <- mapM func (concat chunks) ;; ret (Reduce objs redfunc)).
Proof.
  eapply meq_trans; [apply chunked_reduce_unfold|].
  apply meq_sym. eapply meq_trans.
  - apply bind_ext; [apply mapM_concat | intros; apply meq_refl].
  - eapply meq_trans; [apply bind_assoc|].
    apply bind_ext; [apply meq_refl|]. intros yss w.
    unfold bind, ret, Reduce. simpl. now rewrite chunk_invariant.
Qed.

Lemma thread_pool_MapReduce_sequential `{!ReductionFunction redfunc}
    (pool : TThreadExecutorImpl.t) (args : list A) (nChunks : Z) :
  TThreadExecutorImpl.MapReduce pool func args redfunc nChunks
  =~= TSequentialExecutor.MapReduce TSequentialExecutor.mk func args redfunc.
Proof.
  unfold TThreadExecutorImpl.MapReduce, TThreadExecutorImpl.MapChunked.
  eapply meq_trans; [apply chunked_reduce_sequential|].
  rewrite chunks_of_concat. apply meq_refl.
Qed.

Lemma process_pool_MapReduce_sequential `{!ReductionFunction redfunc}
    (pool : TProcessExecutor.t) (args : list A) (nChunks : Z) :
  TProcessExecutor.MapReduce pool func args redfunc nChunks
  =~= TSequentialExecutor.MapReduce TSequentialExecutor.mk func args redfunc.
Proof.
  unfold TProcessExecutor.MapReduce, TProcessExecutor.MapChunked.
  eapply meq_trans; [apply chunked_reduce_sequential|].
  rewrite chunks_of_concat. apply meq_refl.
Qed.
End PoolEquivalence.

(** ** The facade *)

Section FacadeProperties.
Context {P : Platform}.

(** What the constructor builds. *)
Lemma ctor_inv (execPolicy : ExecutionPolicy) (n : Z) (self : TExecutor.t) :
  TExecutor.ctor execPolicy n = Ret self ->
  match execPolicy with
  | kSerial => self = TExecutor.mk kSerial None None (Some TSequentialExecutor.mk)
  | kMultithread =>
      R__USE_IMT = true /\
      self = TExecutor.mk kMultithread (Some (TThreadExecutorImpl.mk n)) None None
  | kMultiprocess =>
      self = TExecutor.mk kMultiprocess None (Some (TProcessExecutor.mk n)) None
  end.
Proof.
  unfold TExecutor.ctor. destruct execPolicy.
  - intros H. now inversion H.
  - destruct R__USE_IMT; intros H; [now inversion H | discriminate].
  - intros H. now inversion H.
Qed.

(** A policy the build does not support fails the construction with the
    configuration error, and only there. *)
Lemma ctor_unsupported_policy (execPolicy : ExecutionPolicy) (n : Z) :
  (exists what, TExecutor.ctor execPolicy n = Throw (invalid_argument what))
  <-> (execPolicy = kMultithread /\ R__USE_IMT = false).
Proof.
  unfold TExecutor.ctor. split.
  - intros [what H]. destruct execPolicy; try discriminate.
    destruct R__USE_IMT; [discriminate | auto].
  - intros [-> H]. rewrite H. eauto.
Qed.

(** A constructed executor never reaches the [default] of [Map]: the call
    goes to the pool of its policy. *)
Lemma Map_dispatch {I A R} (execPolicy : ExecutionPolicy) (n : Z) (self : TExecutor.t)
    (func : A -> M I R) (args : list A) :
  TExecutor.ctor execPolicy n = Ret self ->
  TExecutor.Map self func args
  = match execPolicy with
    | kSerial => TSequentialExecutor.Map TSequentialExecutor.mk func args
    | kMultithread => TThreadExecutorImpl.Map (TThreadExecutorImpl.mk n) func args
    | kMultiprocess => TProcessExecutor.Map (TProcessExecutor.mk n) func args
    end.
Proof.
  intros H. apply ctor_inv in H. unfold TExecutor.Map.
  destruct execPolicy; [subst self | destruct H as [E ->] | subst self]; simpl.
  - reflexivity.
  - rewrite E. reflexivity.
  - reflexivity.
Qed.

Lemma MapChunked_dispatch {I A R} (execPolicy : ExecutionPolicy) (n : Z)
    (self : TExecutor.t) (func : A -> M I R) (args : list A)
    (redfunc : list R -> R) (nChunks : Z) :
  TExecutor.ctor execPolicy n = Ret self ->
  TExecutor.MapChunked self func args redfunc nChunks
  = match execPolicy with
    | kSerial => TSequentialExecutor.Map TSequentialExecutor.mk func args
    | kMultithread =>
        TThreadExecutorImpl.MapChunked (TThreadExecutorImpl.mk n) func args redfunc nChunks
    | kMultiprocess => TProcessExecutor.Map (TProcessExecutor.mk n) func args
    end.
Proof.
  intros H. pose proof (Map_dispatch _ _ func args H) as HM.
  apply ctor_inv in H. unfold TExecutor.MapChunked.
  destruct execPolicy; [subst self | destruct H as [E ->] | subst self]; simpl.
  - rewrite <- HM. now destruct R__USE_IMT.
  - rewrite E. reflexivity.
  - rewrite <- HM. now destruct R__USE_IMT.
Qed.

(** With a reduction function, every policy computes what the sequential
    executor computes, whatever the chunk hint. *)
Lemma MapReduce_sequential {I A R} (execPolicy : ExecutionPolicy) (n : Z)
    (self : TExecutor.t) (func : A -> M I R) (args : list A)
    (redfunc : list R -> R) `{!ReductionFunction redfunc} (nChunks : Z) :
  TExecutor.ctor execPolicy n = Ret self ->
  TExecutor.MapReduce self func args redfunc nChunks
  =~= TSequentialExecutor.MapReduce TSequentialExecutor.mk func args redfunc.
Proof.
  intros H. unfold TExecutor.MapReduce.
  rewrite (MapChunked_dispatch _ _ func args redfunc nChunks H).
  destruct execPolicy.
  - apply meq_refl.
  - apply thread_pool_MapReduce_sequential; assumption.
  - apply meq_refl.
Qed.
End FacadeProperties.

Section Claims_dispatch.
Context {P : Platform} {I A R : Type}.

(** C4 (chunked Map of the facade). The facade's chunked [Map] and
    [MapReduce] are the thread pool's chunked algorithm when the policy is
    multithread; for the serial and the multiprocess policy they are the
    plain [Map] of the selected backend, whatever the reduction function
    and the chunk hint, followed for [MapReduce] by one reduction of all
    the results. *)
Theorem chunked_Map_forwarding (execPolicy : ExecutionPolicy) (n : Z)
    (self : TExecutor.t) (func : A -> M I R) (args : list A)
    (redfunc : list R -> R) (nChunks : Z) :
  TExecutor.ctor execPolicy n = Ret self ->
  (execPolicy = kMultithread ->
     TExecutor.MapChunked self func args redfunc nChunks
     = TThreadExecutorImpl.MapChunked (TThreadExecutorImpl.mk n) func args redfunc nChunks
     /\ TExecutor.MapReduce self func args redfunc nChunks
        = TThreadExecutorImpl.MapReduce (TThreadExecutorImpl.mk n) func args redfunc nChunks)
  /\ (execPolicy <> kMultithread ->
        TExecutor.MapChunked self func args redfunc nChunks = TExecutor.Map self func args
        /\ TExecutor.Map self func args
           = match execPolicy with
             | kMultiprocess => TProcessExecutor.Map (TProcessExecutor.mk n) func args
             | _ => TSequentialExecutor.Map TSequentialExecutor.mk func args
             end
        /\ (forall (redfunc' : list R -> R) (nChunks' : Z),
              TExecutor.MapChunked self func args redfunc' nChunks'
              = TExecutor.MapChunked self func args redfunc nChunks)
        /\ TExecutor.MapReduce self func args redfunc nChunks
           = (objs <- TExecutor.Map self func args ;; ret (Reduce objs redfunc))).
Proof.
  intros H. split.
  - intros ->. unfold TExecutor.MapReduce, TThreadExecutorImpl.MapReduce.
    rewrite (MapChunked_dispatch _ _ func args redfunc nChunks H). split; reflexivity.
  - intros Hne.
    assert (HC : forall r c, TExecutor.MapChunked self func args r c
                             = TExecutor.Map self func args).
    { intros r c. rewrite (MapChunked_dispatch _ _ func args r c H),
        (Map_dispatch _ _ func args H).
      destruct execPolicy; [reflexivity | contradiction | reflexivity]. }
    repeat split.
    + apply HC.
    + rewrite (Map_dispatch _ _ func args H).
      destruct execPolicy; [reflexivity | contradiction | reflexivity].
    + intros r c. now rewrite !HC.
    + unfold TExecutor.MapReduce. now rewrite HC.
Qed.
End Claims_dispatch.

(** ** Work functions that always return *)

Section TotalRuns.
Context {I A B : Type}.
Variables (f : A -> M I B) (g : A -> B) (step : A -> World I -> World I).
Hypothesis f_runs : forall x w, f x w = (Ret (g x), step x w).

Lemma mapM_run (l : list A) (w : World I) :
  mapM f l w = (Ret (map g l), steps step l w).
Proof.
  revert w. induction l as [|x xs IH]; intros w; simpl.
  - reflexivity.
  - unfold bind. rewrite f_runs, IH. reflexivity.
Qed.

Lemma steps_concat (ls : list (list A)) (w : World I) :
  fold_left (fun w l => steps step l w) ls w = steps step (concat ls) w.
Proof.
  revert w. induction ls as [|l ls IH]; intros w; simpl.
  - reflexivity.
  - rewrite IH. unfold steps. now rewrite fold_left_app.
Qed.
End TotalRuns.

Section TotalPools.
Context {P : Platform} {I A R : Type}.
Variables (func : A -> M I R) (g : A -> R) (step : A -> World I -> World I).
Hypothesis func_runs : forall x w, func x w = (Ret (g x), step x w).
Variable redfunc : list R -> R.

(** The chunk-then-reduce algorithm with such a function: every item is
    run once, in order, and the partial values are reduced. *)
Lemma chunked_reduce_run (chunks : list (list A)) (w : World I) :
  (objs <- mapM (fun chunk => partial <- mapM func chunk ;;
                              ret (Reduce partial redfunc)) chunks ;;
   ret (Reduce objs redfunc)) w
  = (Ret (redfunc (map (fun chunk => redfunc (map g chunk)) chunks)),
     steps step (concat chunks) w).
Proof.
  rewrite chunked_reduce_unfold. unfold bind.
  rewrite (mapM_run (mapM func) (map g) (steps step)).
  - unfold ret. rewrite map_map. unfold steps at 1. now rewrite steps_concat.
  - intros l w'. now apply mapM_run.
Qed.

Lemma thread_pool_MapReduce_run (pool : TThreadExecutorImpl.t) (args : list A)
    (nChunks : Z) (w : World I) :
  TThreadExecutorImpl.MapReduce pool func args redfunc nChunks w
  = (Ret (redfunc (map (fun chunk => redfunc (map g chunk))
                       (chunks_of (Z.to_nat (TThreadExecutorImpl.GetPoolSize pool))
                                  (Z.to_nat nChunks) args))),
     steps step args w).
Proof.
  unfold TThreadExecutorImpl.MapReduce, TThreadExecutorImpl.MapChunked.
  rewrite chunked_reduce_run. now rewrite chunks_of_concat.
Qed.

Lemma process_pool_MapReduce_run (pool : TProcessExecutor.t) (args : list A)
    (nChunks : Z) (w : World I) :
  TProcessExecutor.MapReduce pool func args redfunc nChunks w
  = (Ret (redfunc (map (fun chunk => redfunc (map g chunk))
                       (chunks_of (Z.to_nat (TProcessExecutor.GetPoolSize pool))
                                  (Z.to_nat nChunks) args))),
     steps step args w).
Proof.
  unfold TProcessExecutor.MapReduce, TProcessExecutor.MapChunked.
  rewrite chunked_reduce_run. now rewrite chunks_of_concat.
Qed.

(** With a reduction function the value is the reduction of all results. *)
Lemma chunked_value `{!ReductionFunction redfunc} (chunks : list (list A)) :
  redfunc (map (fun chunk => redfunc (map g chunk)) chunks)
  = redfunc (map g (concat chunks)).
Proof.
  rewrite concat_map, <- chunk_invariant, map_map. reflexivity.
Qed.
End TotalPools.

(** A failing item fails the whole call of a pool. *)
Lemma chunked_reduce_throws {I A R} (func : A -> M I R) (redfunc : list R -> R)
    (chunks : list (list A)) (w w' : World I) (e : Exn) :
  mapM func (concat chunks) w = (Throw e, w') ->
  (objs <- mapM (fun chunk => partial <- mapM func chunk ;;
                              ret (Reduce partial redfunc)) chunks ;;
   ret (Reduce objs redfunc)) w = (Throw e, w').
Proof.
  intros H. rewrite chunked_reduce_unfold. rewrite mapM_concat in H.
  unfold bind, ret in *.
  destruct (mapM (mapM func) chunks w) as [[yss|e'] w1]; [discriminate | now inversion H].
Qed.

(** ** Every item once, on the facade *)

Lemma steps_log_calls {A} (l : list A) (w : World A) :
  calls (steps log_call l w) = rev l ++ calls w.
Proof.
  unfold steps. revert w. induction l as [|x xs IH]; intros w; simpl.
  - reflexivity.
  - rewrite IH. simpl. now rewrite <- app_assoc.
Qed.

(** With a work function that always returns, [MapReduce] of the facade
    calls it once on every item, in input order, under every policy and for
    every chunk hint. *)
Lemma facade_calls_every_item_once {P : Platform} {I R} (execPolicy : ExecutionPolicy)
    (n : Z) (self : TExecutor.t) (g : I -> R) (args : list I)
    (redfunc : list R -> R) (nChunks : Z) (w : World I) :
  TExecutor.ctor execPolicy n = Ret self ->
  calls (snd (TExecutor.MapReduce self (invoke (fun x => Ret (g x))) args redfunc nChunks w))
  = rev args ++ calls w.
Proof.
  intros H. unfold TExecutor.MapReduce.
  rewrite (MapChunked_dispatch _ _ _ args redfunc nChunks H).
  assert (Hplain : forall w,
    (objs <- mapM (invoke (fun x => Ret (g x))) args ;; ret (Reduce objs redfunc)) w
    = (Ret (redfunc (map g args)), steps log_call args w)).
  { intros w1. unfold bind. rewrite (mapM_run _ g log_call) by reflexivity. reflexivity. }
  destruct execPolicy.
  - unfold TSequentialExecutor.Map. rewrite Hplain. cbn [snd]. apply steps_log_calls.
  - pose proof (thread_pool_MapReduce_run (invoke (fun x => Ret (g x))) g log_call
                  ltac:(reflexivity) redfunc (TThreadExecutorImpl.mk n) args nChunks w) as E.
    unfold TThreadExecutorImpl.MapReduce in E. rewrite E. cbn [snd]. apply steps_log_calls.
  - unfold TProcessExecutor.Map. rewrite Hplain. cbn [snd]. apply steps_log_calls.
Qed.

(** ** The NUMA executor: the [nTimes] overload *)

Lemma steps_log_length {I A} (x : I) (l : list A) (w : World I) :
  length (calls (steps (fun _ w => log_call x w) l w)) = (length l + length (calls w))%nat.
Proof.
  unfold steps. revert w. induction l as [|y ys IH]; intros w; simpl.
  - reflexivity.
  - rewrite IH. simpl. lia.
Qed.

Lemma TSeq_items_length (s : TSeq) :
  length (TSeq_items s) = Z.to_nat (seq_end s - seq_begin s).
Proof. unfold TSeq_items. now rewrite length_map, length_seq. Qed.

Lemma nTimes_items_length (n : Z) : length (nTimes_items n) = Z.to_nat n.
Proof. apply repeat_length. Qed.

Lemma map_const_repeat {A B} (b : B) (l : list A) :
  map (fun _ => b) l = repeat b (length l).
Proof. induction l as [|x xs IH]; simpl; [reflexivity | now rewrite IH]. Qed.

Section NUMA_nTimes.
Context {P : Platform}.
Variables (numa : TNUMAExecutor.t) (nTimes nChunks v : Z).

Lemma runOnNode_nTimes_run (i : Z) (w : World unit) :
  TNUMAExecutor.runOnNode_nTimes numa (invoke (fun _ : unit => Ret v) tt) nTimes sumZ
    nChunks i w
  = (Ret (Z.of_nat (Z.to_nat nTimes) * v), domain_step_nTimes nTimes i w).
Proof.
  unfold TNUMAExecutor.runOnNode_nTimes, domain_step_nTimes.
  unfold bind at 1. unfold numa_run_on_node at 1. unfold bind at 1.
  assert (Hrun : forall pool c w1,
    TThreadExecutorImpl.MapReduce pool (fun _ : unit => invoke (fun _ : unit => Ret v) tt)
      (nTimes_items nTimes) sumZ c w1
    = (Ret (Z.of_nat (Z.to_nat nTimes) * v),
       steps (fun _ w => log_call tt w) (nTimes_items nTimes) w1)).
  { intros pool c w1.
    rewrite (thread_pool_MapReduce_run
               (fun _ : unit => invoke (fun _ : unit => Ret v) tt) (fun _ => v)
               (fun _ w => log_call tt w)) by reflexivity.
    rewrite (chunked_value (redfunc := sumZ) (fun _ : unit => v)), chunks_of_concat.
    rewrite map_const_repeat, sumZ_repeat, nTimes_items_length. reflexivity. }
  destruct (negb (nChunks =? 0)); rewrite Hrun; reflexivity.
Qed.

Lemma domain_steps_calls (l : list Z) (w : World unit) :
  length (calls (steps (domain_step_nTimes nTimes) l w))
  = (length l * Z.to_nat nTimes + length (calls w))%nat.
Proof.
  revert w. induction l as [|i l IH]; intros w.
  - reflexivity.
  - unfold steps in *. cbn [fold_left length]. rewrite IH.
    unfold domain_step_nTimes. cbn [calls set_affinity].
    rewrite steps_log_length, nTimes_items_length. cbn [calls set_affinity]. lia.
Qed.

(** C1 (every work item exactly once), on the code: the [nTimes] overload
    of the NUMA executor's [MapReduce] hands the whole count [nTimes] to
    every domain task. With a work function returning the constant [v] and
    the integer sum, the call returns [fNDomains * (nTimes * v)] after
    [fNDomains * nTimes] calls of the work function, not [nTimes * v]
    after [nTimes] calls. *)
Theorem numa_nTimes_runs_every_domain (w : World unit) :
  0 <= TNUMAExecutor.fNDomains numa ->
  0 <= nTimes ->
  fst (TNUMAExecutor.MapReduce_nTimes numa (invoke (fun _ : unit => Ret v) tt)
         nTimes sumZ nChunks w)
  = Ret (TNUMAExecutor.fNDomains numa * (nTimes * v))
  /\ Z.of_nat (length (calls (snd (TNUMAExecutor.MapReduce_nTimes numa
                                     (invoke (fun _ : unit => Ret v) tt)
                                     nTimes sumZ nChunks w))))
     = TNUMAExecutor.fNDomains numa * nTimes + Z.of_nat (length (calls w)).
Proof.
  intros HD Hn. unfold TNUMAExecutor.MapReduce_nTimes.
  rewrite (process_pool_MapReduce_run _ (fun _ => Z.of_nat (Z.to_nat nTimes) * v)
             (domain_step_nTimes nTimes)) by (intros; apply runOnNode_nTimes_run).
  cbn [fst snd]. split.
  - rewrite (chunked_value (redfunc := sumZ) (fun _ : Z => Z.of_nat (Z.to_nat nTimes) * v)),
      chunks_of_concat.
    rewrite map_const_repeat, sumZ_repeat, TSeq_items_length. cbn [seq_end seq_begin TSeq_upto].
    f_equal. rewrite Z.sub_0_r, !Z2Nat.id by assumption. reflexivity.
  - rewrite domain_steps_calls, TSeq_items_length. cbn [seq_end seq_begin TSeq_upto].
    rewrite Z.sub_0_r. rewrite Nat2Z.inj_add, Nat2Z.inj_mul, !Z2Nat.id by assumption.
    reflexivity.
Qed.
End NUMA_nTimes.

(** On a machine with two NUMA nodes, [MapReduce] with a work function
    returning 1, [nTimes = 10] and the integer sum returns 20 after 20 calls. *)
Lemma numa_nTimes_runs_every_domain_witness :
  let numa := TNUMAExecutor.ctor (P := two_node_machine) 8 in
  0 <= TNUMAExecutor.fNDomains numa
  /\ 0 <= 10
  /\ fst (TNUMAExecutor.MapReduce_nTimes (P := two_node_machine) numa
            (invoke (fun _ : unit => Ret 1) tt) 10 sumZ 0 w0) = Ret 20
  /\ Z.of_nat (length (calls (snd (TNUMAExecutor.MapReduce_nTimes (P := two_node_machine)
                                     numa (invoke (fun _ : unit => Ret 1) tt) 10 sumZ 0 w0))))
     = 20.
Proof.
  intros numa.
  assert (HD : 0 <= TNUMAExecutor.fNDomains numa) by (vm_compute; discriminate).
  assert (Hn : 0 <= 10) by lia.
  pose proof (@numa_nTimes_runs_every_domain two_node_machine numa 10 0 1 w0 HD Hn)
    as [H1 H2].
  exact (conj HD (conj Hn (conj H1 H2))).
Defined.

(** ** The NUMA executor: affinity of the domain tasks *)

(** The shape of every [runOnNode] lambda: pin, run the pool, unpin, return. *)
Lemma pinned_task_returns {I R} (i : Z) (body : M I R) (w w' : World I) (r : R) :
  (numa_run_on_node i ;;; res <- body ;; numa_run_on_all_nodes ;;; ret res) w = (Ret r, w') ->
  affinity w' = AllNodes.
Proof.
  unfold bind, numa_run_on_node, numa_run_on_all_nodes, ret.
  destruct (body (set_affinity (OnNode i) w)) as [[res|e] w1]; intros H; inversion H.
  reflexivity.
Qed.

(** When the pool fails the exception leaves the task before the unpinning. *)
Lemma pinned_task_throws {I R} (i : Z) (body : M I R) (w w1 : World I) (e : Exn) :
  body (set_affinity (OnNode i) w) = (Throw e, w1) ->
  (numa_run_on_node i ;;; res <- body ;; numa_run_on_all_nodes ;;; ret res) w = (Throw e, w1).
Proof.
  intros H. unfold bind, numa_run_on_node, numa_run_on_all_nodes, ret. now rewrite H.
Qed.

Section NUMA_affinity.
Context {P : Platform} {I R T : Type}.
Variables (numa : TNUMAExecutor.t) (redfunc : list R -> R) (nChunks : Z).

(** C6, as amended (affinity of the domain tasks). Every NUMA domain task
    (the [runOnNode] lambda of the [nTimes], the vector and the [TSeq]
    overload) that returns a result has restored the default, unpinned
    affinity when it returns. *)
Theorem domain_task_restores_affinity (func0 : M I R) (nTimes : Z)
    (funcT : T -> M I R) (dataRanges : list (list T))
    (func : Z -> M I R) (args : TSeq)
    (task : Z -> M I R) (i : Z) (w w' : World I) (r : R) :
  In task [TNUMAExecutor.runOnNode_nTimes numa func0 nTimes redfunc nChunks;
           TNUMAExecutor.runOnNode_vec numa funcT dataRanges redfunc nChunks;
           TNUMAExecutor.runOnNode_seq numa func args redfunc nChunks] ->
  task i w = (Ret r, w') ->
  affinity w' = AllNodes.
Proof.
  intros [<-|[<-|[<-|[]]]] H; eapply pinned_task_returns; exact H.
Qed.
End NUMA_affinity.

Lemma domain_task_restores_affinity_witness :
  let numa := TNUMAExecutor.ctor (P := two_node_machine) 8 in
  let task := TNUMAExecutor.runOnNode_seq (P := two_node_machine) numa
                (invoke (fun i => Ret i)) (mkTSeq 0 6) sumZ 4 in
  In task [TNUMAExecutor.runOnNode_nTimes (P := two_node_machine) numa
             (invoke (fun _ => Ret 1) 0) 10 sumZ 4;
           TNUMAExecutor.runOnNode_vec (P := two_node_machine) numa
             (invoke (fun x : Z => Ret x)) [[1; 2]; [3]] sumZ 4;
           TNUMAExecutor.runOnNode_seq (P := two_node_machine) numa
             (invoke (fun i => Ret i)) (mkTSeq 0 6) sumZ 4]
  /\ task 1 (mkWorld AllNodes []) = (Ret 12, mkWorld AllNodes [5; 4; 3])
  /\ affinity (mkWorld AllNodes [5; 4; 3]) = AllNodes.
Proof.
  intros numa task.
  assert (HIn : In task [TNUMAExecutor.runOnNode_nTimes (P := two_node_machine) numa
             (invoke (fun _ => Ret 1) 0) 10 sumZ 4;
           TNUMAExecutor.runOnNode_vec (P := two_node_machine) numa
             (invoke (fun x : Z => Ret x)) [[1; 2]; [3]] sumZ 4;
           TNUMAExecutor.runOnNode_seq (P := two_node_machine) numa
             (invoke (fun i => Ret i)) (mkTSeq 0 6) sumZ 4])
    by (simpl; auto).
  assert (Hrun : task 1 (mkWorld AllNodes []) = (Ret 12, mkWorld AllNodes [5; 4; 3]))
    by (vm_compute; reflexivity).
  split; [exact HIn | split; [exact Hrun |]].
  exact (@domain_task_restores_affinity two_node_machine Z Z Z numa sumZ 4
           (invoke (fun _ => Ret 1) 0) 10 (invoke (fun x : Z => Ret x)) [[1; 2]; [3]]
           (invoke (fun i => Ret i)) (mkTSeq 0 6) task 1 _ _ _ HIn Hrun).
Defined.

(** C6 as stated fails on the code: a work function that throws leaves the
    domain task by the exception, past the call that restores the affinity,
    with the thread still pinned to the node. *)
Lemma domain_task_failure_stays_pinned :
  let numa := TNUMAExecutor.ctor (P := two_node_machine) 8 in
  let run := TNUMAExecutor.runOnNode_nTimes (P := two_node_machine) numa
               (invoke (fun _ : unit => @Throw Z (work_failure 3)) tt) 10 sumZ 0 1
               (mkWorld AllNodes []) in
  fst run = Throw (work_failure 3)
  /\ affinity (snd run) = OnNode 1
  /\ affinity (snd run) <> AllNodes.
Proof. vm_compute. repeat split; discriminate. Qed.

(** ** The NUMA executor: [splitData] *)

Lemma chain_le (a c : Z) (spans : list Span) : chain a spans c -> a <= c.
Proof. induction 1; lia. Qed.

Lemma chain_snoc (a b c : Z) (spans : list Span) :
  chain a spans b -> b < c -> chain a (spans ++ [(b, c)]) c.
Proof.
  induction 1 as [a|a b c' rest Hab Hrest IH]; intros Hc; simpl.
  - constructor; [assumption | constructor].
  - constructor; [assumption | now apply IH].
Qed.

Lemma firstn_add {T} (m n : nat) (l : list T) :
  firstn (m + n) l = firstn m l ++ firstn n (skipn m l).
Proof.
  revert l. induction m as [|m IH]; intros l; simpl.
  - reflexivity.
  - destruct l as [|x xs]; simpl.
    + now rewrite firstn_nil.
    + now rewrite IH.
Qed.

(** The spans of a chain cover the slice between its ends, in order. *)
Lemma chain_cover {T} (vec : list T) (a c : Z) (spans : list Span) :
  chain a spans c -> 0 <= a ->
  concat (map (span_items vec) spans)
  = firstn (Z.to_nat (c - a)) (skipn (Z.to_nat a) vec).
Proof.
  induction 1 as [a|a b c rest Hab Hrest IH]; intros Ha; simpl.
  - now rewrite Z.sub_diag.
  - rewrite IH by lia. unfold span_items. cbn [fst snd].
    pose proof (chain_le Hrest) as Hbc.
    replace (Z.to_nat (c - a)) with (Z.to_nat (b - a) + Z.to_nat (c - b))%nat by lia.
    rewrite firstn_add, skipn_skipn.
    replace (Z.to_nat (b - a) + Z.to_nat a)%nat with (Z.to_nat b) by lia.
    reflexivity.
Qed.

Section SplitData.
Variables (size stride : Z).
Hypothesis stride_pos : 1 <= stride.
Hypothesis stride_le : stride <= size.
Hypothesis size_u32 : size < 2 ^ 32.

(** The loop, from an index [i] it can be entered with. *)
Lemma splitData_loop_spec (fuel : nat) :
  forall (i : Z) (v : list Span),
    0 <= i -> i * stride < size -> chain 0 v (i * stride) ->
    (1 + Z.to_nat (size - (i * stride + stride)) <= fuel)%nat ->
    exists (i' : Z) (v' : list Span),
      TNUMAExecutor.splitData_loop fuel size stride i v = Some (i', v')
      /\ i <= i' /\ i' * stride < size <= i' * stride + stride
      /\ chain 0 v' (i' * stride)
      /\ Z.of_nat (length v') = Z.of_nat (length v) + (i' - i).
Proof.
  induction fuel as [|fuel IH]; intros i v Hi Hlt Hchain Hfuel; [lia|].
  cbn [TNUMAExecutor.splitData_loop].
  assert (Hm : 0 <= i * stride) by nia.
  rewrite (@u32_small (i * stride)) by lia.
  rewrite (@u64_small (size - stride)) by (change (2 ^ 64) with 18446744073709551616;
                                          change (2 ^ 32) with 4294967296 in size_u32; lia).
  destruct (Z.ltb_spec (i * stride) (size - stride)) as [Hgo|Hstop].
  - assert (E : (i + 1) * stride = i * stride + stride) by ring.
    rewrite E. rewrite (@u32_small (i * stride + stride)) by lia.
    assert (Hi1 : i + 1 <= i * stride + stride) by nia.
    rewrite (@u32_small (i + 1)) by lia.
    destruct (IH (i + 1) (v ++ [(i * stride, i * stride + stride)]))
      as (i' & v' & Hrun & Hle & Hexit & Hch & Hlen).
    + lia.
    + rewrite E. lia.
    + rewrite E. apply chain_snoc; [assumption | lia].
    + rewrite E. lia.
    + exists i', v'. rewrite Hrun. repeat split; try lia; try assumption.
      rewrite Hlen, length_app. simpl. lia.
  - exists i, v. repeat split; try lia; try assumption.
Qed.
End SplitData.

(** More fuel does not change what the loop returns. *)
Lemma splitData_loop_fuel (size stride : Z) (f1 : nat) :
  forall (f2 : nat) (i : Z) (v : list Span) (r : Z * list Span),
    (f1 <= f2)%nat ->
    TNUMAExecutor.splitData_loop f1 size stride i v = Some r ->
    TNUMAExecutor.splitData_loop f2 size stride i v = Some r.
Proof.
  induction f1 as [|f1 IH]; intros f2 i v r Hle Hr; [discriminate|].
  destruct f2 as [|f2]; [lia|]. cbn [TNUMAExecutor.splitData_loop] in *.
  destruct (u32 (i * stride) <? u64 (size - stride)); [|assumption].
  apply IH; [lia | assumption].
Qed.

(** The ceiling of the division, as [splitData] computes it. *)
Lemma ceil_stride (size D : Z) :
  1 <= size -> 1 <= D ->
  let stride := (size + D - 1) / D in
  1 <= stride /\ stride <= size /\ size <= D * stride.
Proof.
  intros Hs HD stride.
  pose proof (Z.div_mod (size + D - 1) D ltac:(lia)) as E.
  pose proof (Z.mod_pos_bound (size + D - 1) D ltac:(lia)) as B.
  fold stride in E. repeat split; nia.
Qed.

(** The vector-form [MapReduce] reads [dataRanges[i]] for the domain [i]
    whether or not [splitData] made that many spans. *)
Lemma runOnNode_vec_out_of_range {P : Platform} {I R T} (self : TNUMAExecutor.t)
    (func : T -> M I R) (dataRanges : list (list T)) (redfunc : list R -> R)
    (nChunks i : Z) (w : World I) :
  (length dataRanges <= Z.to_nat i)%nat ->
  TNUMAExecutor.runOnNode_vec self func dataRanges redfunc nChunks i w
  = (Throw (out_of_range i), set_affinity (OnNode i) w).
Proof.
  intros H. unfold TNUMAExecutor.runOnNode_vec.
  apply pinned_task_throws.
  apply nth_error_None in H. rewrite H. reflexivity.
Qed.

Section SplitData_claim.
Context {P : Platform} {T : Type}.

(** C9, as amended ([splitData]). For a non-empty vector and a domain
    count [fNDomains >= 1] with [size + fNDomains - 1] below [2^32] (the
    range of the [unsigned] the stride is computed in), [splitData] returns
    [k] spans, [1 <= k <= fNDomains], that are non-empty, contiguous,
    pairwise disjoint and in input order, and that cover exactly the input
    vector. [k] can be smaller than [fNDomains] (one span for a vector of
    one element and two domains), and the vector-form [MapReduce] then
    reads [dataRanges[i]] past the end for the domains [i >= k]. *)
Theorem splitData_partition (self : TNUMAExecutor.t) (vec : list T) :
  vec <> [] ->
  1 <= TNUMAExecutor.fNDomains self ->
  Z.of_nat (length vec) + TNUMAExecutor.fNDomains self - 1 < 2 ^ 32 ->
  exists spans : list Span,
    (forall fuel, (length vec <= fuel)%nat ->
       TNUMAExecutor.splitSpans self fuel (Z.of_nat (length vec)) = Some spans
       /\ TNUMAExecutor.splitData self fuel vec = Some (map (span_items vec) spans))
    /\ 1 <= Z.of_nat (length spans) <= TNUMAExecutor.fNDomains self
    /\ chain 0 spans (Z.of_nat (length vec))
    /\ concat (map (span_items vec) spans) = vec
    /\ (forall (I R : Type) (func : T -> M I R) (redfunc : list R -> R)
               (nChunks i : Z) (w : World I),
          Z.of_nat (length spans) <= i < TNUMAExecutor.fNDomains self ->
          TNUMAExecutor.runOnNode_vec self func (map (span_items vec) spans)
            redfunc nChunks i w
          = (Throw (out_of_range i), set_affinity (OnNode i) w))
    /\ (forall (x : T) (nThreads : Z) (fuel : nat),
          TNUMAExecutor.splitData (TNUMAExecutor.mk 2 nThreads) (S fuel) [x]
          = Some [[x]]).
Proof.
  intros Hvec HD Hrange.
  set (size := Z.of_nat (length vec)) in *.
  set (D := TNUMAExecutor.fNDomains self) in *.
  assert (Hsize : 1 <= size).
  { destruct vec; [contradiction | unfold size; simpl; lia]. }
  destruct (ceil_stride Hsize HD) as (Hs1 & Hs2 & Hs3).
  set (stride := (size + D - 1) / D) in *.
  assert (Hsz32 : size < 2 ^ 32) by lia.
  assert (Hloop : forall fuel, (length vec <= fuel)%nat ->
    exists i' v', TNUMAExecutor.splitData_loop fuel size stride 0 [] = Some (i', v')
      /\ 0 <= i' /\ i' * stride < size <= i' * stride + stride
      /\ chain 0 v' (i' * stride)
      /\ Z.of_nat (length v') = Z.of_nat (@length Span []) + (i' - 0)).
  { intros fuel Hfuel.
    apply (splitData_loop_spec Hs1 Hs2 Hsz32); try lia.
    - rewrite Z.mul_0_l. constructor. }
  destruct (Hloop (length vec) (Nat.le_refl _))
    as (i' & v' & Hrun & Hi' & Hexit & Hch & Hlen).
  assert (Hu : u32 (i' * stride) = i' * stride) by (apply u32_small; nia).
  exists (v' ++ [(i' * stride, size)]).
  assert (Hchain : chain 0 (v' ++ [(i' * stride, size)]) size)
    by (apply chain_snoc; [assumption | lia]).
  assert (Hspans : forall fuel, (length vec <= fuel)%nat ->
    TNUMAExecutor.splitSpans self fuel size = Some (v' ++ [(i' * stride, size)])).
  { intros fuel Hfuel. unfold TNUMAExecutor.splitSpans. fold D.
    rewrite (@u32_small size) by lia.
    rewrite (@u32_small (size + D - 1)) by lia. fold stride.
    destruct (Hloop fuel Hfuel) as (i2 & v2 & Hrun2 & Hi2 & Hexit2 & Hch2 & Hlen2).
    rewrite Hrun2.
    assert (i2 = i') by nia. subst i2.
    assert (v2 = v').
    { pose proof (splitData_loop_fuel _ _ _ _ (Nat.le_max_r (length vec) fuel) Hrun2) as A.
      pose proof (splitData_loop_fuel _ _ _ _ (Nat.le_max_l (length vec) fuel) Hrun) as B.
      rewrite A in B. now inversion B. }
    subst v2. now rewrite Hu. }
  split; [|split; [|split; [|split; [|split]]]].
  - intros fuel Hfuel. split; [now apply Hspans|].
    unfold TNUMAExecutor.splitData. fold size. now rewrite (Hspans fuel Hfuel).
  - rewrite length_app. simpl. rewrite Nat2Z.inj_add, Hlen. simpl. nia.
  - exact Hchain.
  - rewrite (chain_cover vec Hchain) by lia. simpl.
    rewrite Z.sub_0_r. unfold size. rewrite Nat2Z.id. apply firstn_all.
  - intros I R func redfunc nChunks i w Hi.
    apply runOnNode_vec_out_of_range. rewrite length_map. lia.
  - intros x nThreads fuel. reflexivity.
Qed.
End SplitData_claim.

Lemma splitData_partition_witness :
  [1; 2; 3] <> []
  /\ 1 <= 2
  /\ 3 + 2 - 1 < 2 ^ 32
  /\ exists spans : list Span,
       TNUMAExecutor.splitData (TNUMAExecutor.mk 2 4) 3 [1; 2; 3]
       = Some (map (span_items [1; 2; 3]) spans)
       /\ 1 <= Z.of_nat (length spans) <= 2
       /\ concat (map (span_items [1; 2; 3]) spans) = [1; 2; 3].
Proof.
  assert (H1 : [1; 2; 3] <> []) by discriminate.
  assert (H2 : 1 <= TNUMAExecutor.fNDomains (TNUMAExecutor.mk 2 4)) by (simpl; lia).
  assert (H3 : Z.of_nat (length [1; 2; 3])
               + TNUMAExecutor.fNDomains (TNUMAExecutor.mk 2 4) - 1 < 2 ^ 32)
    by (simpl; lia).
  destruct (@splitData_partition two_node_machine Z (TNUMAExecutor.mk 2 4) [1; 2; 3]
              H1 H2 H3) as (spans & Hrun & Hk & _ & Hcover & _).
  repeat split; try (simpl; lia); try discriminate.
  exists spans. split; [apply (Hrun 3%nat); simpl; lia | split; assumption].
Defined.

(** The loop of [splitData] with a stride of zero never ends. *)
Lemma splitData_loop_stride_0 (fuel : nat) :
  forall (i : Z) (v : list Span),
    TNUMAExecutor.splitData_loop fuel 4294967295 0 i v = None.
Proof.
  induction fuel as [|fuel IH]; intros i v; [reflexivity|].
  cbn [TNUMAExecutor.splitData_loop]. rewrite Z.mul_0_r.
  change (u32 0 <? u64 (4294967295 - 0)) with true. cbv iota. apply IH.
Qed.

(** C9 as stated fails on the code for a vector at the end of the [unsigned]
    range: with [2^32 - 1] elements and two domains the sum [nToProcess +
    fNDomains - 1] wraps around to zero, the stride is zero and the loop of
    [splitData] never ends: no span list is returned. *)
Lemma splitData_wraps_around :
  ~ exists (fuel : nat) (spans : list (list unit)),
      TNUMAExecutor.splitData (TNUMAExecutor.mk 2 4) fuel
        (repeat tt (Z.to_nat 4294967295)) = Some spans.
Proof.
  intros (fuel & spans & H). unfold TNUMAExecutor.splitData in H.
  rewrite repeat_length, Z2Nat.id in H by lia.
  unfold TNUMAExecutor.splitSpans in H. cbn [TNUMAExecutor.fNDomains] in H.
  change (u32 (u32 4294967295 + 2 - 1) / 2) with 0 in H.
  rewrite splitData_loop_stride_0 in H. discriminate.
Qed.

(** ** The NUMA executor: the [TSeq] overload *)

Section NUMA_seq.
Context {P : Platform} {R : Type}.
Variables (numa : TNUMAExecutor.t) (g : Z -> R) (args : TSeq)
          (redfunc : list R -> R) (nChunks : Z).

Lemma runOnNode_seq_run (i : Z) (w : World Z) :
  TNUMAExecutor.runOnNode_seq numa (invoke (fun i => Ret (g i))) args redfunc nChunks i w
  = (Ret (domain_value_seq numa g args redfunc nChunks i), domain_step_seq numa args i w).
Proof.
  unfold TNUMAExecutor.runOnNode_seq, domain_step_seq, domain_value_seq.
  unfold bind at 1. unfold numa_run_on_node at 1. unfold bind at 1.
  rewrite (thread_pool_MapReduce_run (invoke (fun i => Ret (g i))) g log_call)
    by reflexivity.
  reflexivity.
Qed.

(** The [TSeq] overload with a work function that always returns: it
    returns, and the calls logged are the items of the domains' sequences,
    domain after domain. *)
Lemma numa_MapReduce_seq_run (w : World Z) :
  exists r : R,
    TNUMAExecutor.MapReduce_seq numa (invoke (fun i => Ret (g i))) args redfunc nChunks w
    = (Ret r, steps (domain_step_seq numa args)
                (TSeq_items (TSeq_upto (TNUMAExecutor.fNDomains numa))) w).
Proof.
  unfold TNUMAExecutor.MapReduce_seq.
  rewrite (process_pool_MapReduce_run _ (domain_value_seq numa g args redfunc nChunks)
             (domain_step_seq numa args))
    by (intros; apply runOnNode_seq_run).
  eexists. reflexivity.
Qed.

Lemma domain_steps_seq_calls (domains : list Z) (w : World Z) :
  calls (steps (domain_step_seq numa args) domains w)
  = rev (concat (map (domain_items numa args) domains)) ++ calls w.
Proof.
  unfold steps. revert w. induction domains as [|i l IH]; intros w.
  - reflexivity.
  - cbn [fold_left map concat]. rewrite IH. unfold domain_step_seq.
    cbn [calls set_affinity]. rewrite steps_log_calls. cbn [calls set_affinity].
    rewrite rev_app_distr, <- app_assoc. reflexivity.
Qed.
End NUMA_seq.

(** ** The [TSeq] overload for a sequence that starts at 0 *)

Lemma TSeq_items_empty (b e : Z) : e <= b -> TSeq_items (mkTSeq b e) = [].
Proof.
  intros H. unfold TSeq_items. cbn [seq_begin seq_end].
  replace (Z.to_nat (e - b)) with 0%nat by lia. reflexivity.
Qed.

Lemma items_split (a : Z) (n m : nat) :
  map (fun k => a + Z.of_nat k) (seq 0 (n + m))
  = map (fun k => a + Z.of_nat k) (seq 0 n)
    ++ map (fun k => a + Z.of_nat n + Z.of_nat k) (seq 0 m).
Proof.
  induction m as [|m IH].
  - rewrite Nat.add_0_r. simpl. now rewrite app_nil_r.
  - rewrite Nat.add_succ_r, !seq_S, !map_app, IH, <- app_assoc. simpl.
    do 3 f_equal. lia.
Qed.

Lemma TSeq_items_app (a b c : Z) :
  a <= b <= c ->
  TSeq_items (mkTSeq a b) ++ TSeq_items (mkTSeq b c) = TSeq_items (mkTSeq a c).
Proof.
  intros H. unfold TSeq_items. cbn [seq_begin seq_end].
  replace (Z.to_nat (c - a)) with (Z.to_nat (b - a) + Z.to_nat (c - b))%nat by lia.
  rewrite items_split. f_equal. apply map_ext. intros k. lia.
Qed.

Lemma TSeq_upto_succ (k : nat) :
  TSeq_items (TSeq_upto (Z.of_nat (S k)))
  = TSeq_items (TSeq_upto (Z.of_nat k)) ++ [Z.of_nat k].
Proof.
  unfold TSeq_items, TSeq_upto. cbn [seq_begin seq_end].
  rewrite !Z.sub_0_r, !Nat2Z.id, seq_S, map_app. reflexivity.
Qed.

Section SeqFromZero.
Variables (numa : TNUMAExecutor.t) (e : Z).
Hypothesis D_pos : 1 <= TNUMAExecutor.fNDomains numa.
Hypothesis e_pos : 1 <= e.
Hypothesis in_range : e + TNUMAExecutor.fNDomains numa - 1 < 2 ^ 32.

Lemma seq_stride_from_zero :
  TNUMAExecutor.seq_stride numa (mkTSeq 0 e)
  = (e + TNUMAExecutor.fNDomains numa - 1) / TNUMAExecutor.fNDomains numa.
Proof.
  unfold TNUMAExecutor.seq_stride. cbn [seq_begin seq_end].
  rewrite Z.sub_0_r, (@u32_small (e + TNUMAExecutor.fNDomains numa - 1)) by lia.
  reflexivity.
Qed.

Lemma domain_sequence_from_zero (i : Z) :
  0 <= i < TNUMAExecutor.fNDomains numa ->
  let stride := TNUMAExecutor.seq_stride numa (mkTSeq 0 e) in
  TNUMAExecutor.domain_sequence numa (mkTSeq 0 e) i
  = mkTSeq (i * stride) (Z.min (i * stride + stride) e).
Proof.
  intros Hi stride. unfold TNUMAExecutor.domain_sequence. fold stride.
  destruct (ceil_stride e_pos D_pos) as (H1 & H2 & H3).
  assert (HDs : TNUMAExecutor.fNDomains numa * stride <= e + TNUMAExecutor.fNDomains numa - 1).
  { unfold stride. rewrite seq_stride_from_zero. apply Z.mul_div_le. lia. }
  rewrite <- seq_stride_from_zero in H1, H2, H3. fold stride in H1, H2, H3.
  cbn [seq_begin seq_end].
  replace ((i + 1) * stride) with (i * stride + stride) by ring.
  rewrite (@u32_small (i * stride)), (@u32_small (i * stride + stride)) by nia.
  f_equal. nia.
Qed.

(** The items of the first [k] domains are the indices below [k*stride],
    or all of them. *)
Lemma domain_items_prefix (k : nat) :
  Z.of_nat k <= TNUMAExecutor.fNDomains numa ->
  concat (map (domain_items numa (mkTSeq 0 e)) (TSeq_items (TSeq_upto (Z.of_nat k))))
  = TSeq_items (mkTSeq 0 (Z.min (Z.of_nat k * TNUMAExecutor.seq_stride numa (mkTSeq 0 e)) e)).
Proof.
  destruct (ceil_stride e_pos D_pos) as (H1 & H2 & H3).
  rewrite <- seq_stride_from_zero in H1, H2, H3.
  set (stride := TNUMAExecutor.seq_stride numa (mkTSeq 0 e)) in *.
  induction k as [|k IH]; intros Hk.
  - change (Z.of_nat 0 * stride) with 0. rewrite Z.min_l by lia. reflexivity.
  - rewrite TSeq_upto_succ, map_app, concat_app, IH by lia. cbn [map concat].
    rewrite app_nil_r. unfold domain_items.
    rewrite domain_sequence_from_zero by lia. fold stride.
    replace (Z.of_nat (S k) * stride) with (Z.of_nat k * stride + stride) by lia.
    destruct (Z.le_gt_cases e (Z.of_nat k * stride)) as [Hfull|Hpart].
    + rewrite (@TSeq_items_empty (Z.of_nat k * stride)) by lia.
      rewrite app_nil_r. f_equal. f_equal. lia.
    + rewrite (Z.min_l (Z.of_nat k * stride) e) by lia.
      apply TSeq_items_app. lia.
Qed.

(** For a sequence that starts at 0 the sub-sequences of the domains are
    contiguous and their items are exactly the items of the sequence, in
    order, each once. *)
Lemma domain_items_from_zero :
  concat (map (domain_items numa (mkTSeq 0 e))
              (TSeq_items (TSeq_upto (TNUMAExecutor.fNDomains numa))))
  = TSeq_items (mkTSeq 0 e).
Proof.
  destruct (ceil_stride e_pos D_pos) as (H1 & H2 & H3).
  rewrite <- seq_stride_from_zero in H1, H2, H3.
  rewrite <- (Z2Nat.id (TNUMAExecutor.fNDomains numa)) at 1 by lia.
  rewrite domain_items_prefix by lia.
  rewrite Z2Nat.id by lia. f_equal. f_equal. lia.
Qed.
End SeqFromZero.

Section NUMA_seq_value.
Context {P : Platform} {R : Type}.
Variables (numa : TNUMAExecutor.t) (g : Z -> R) (redfunc : list R -> R) (nChunks : Z).
Context `{!ReductionFunction redfunc}.

(** With a reduction function, the [TSeq] overload reduces the results of
    the items of the domains' sub-sequences, whatever these are. *)
Lemma numa_MapReduce_seq_value (args : TSeq) (w : World Z) :
  TNUMAExecutor.MapReduce_seq numa (invoke (fun i => Ret (g i))) args redfunc nChunks w
  = (Ret (redfunc (map g (concat (map (domain_items numa args)
                                     (TSeq_items (TSeq_upto (TNUMAExecutor.fNDomains numa))))))),
     steps (domain_step_seq numa args)
           (TSeq_items (TSeq_upto (TNUMAExecutor.fNDomains numa))) w).
Proof.
  unfold TNUMAExecutor.MapReduce_seq.
  rewrite (process_pool_MapReduce_run _ (domain_value_seq numa g args redfunc nChunks)
             (domain_step_seq numa args))
    by (intros; apply runOnNode_seq_run).
  f_equal. f_equal.
  rewrite (@chunked_value _ _ _ redfunc _), chunks_of_concat.
  rewrite concat_map, <- chunk_invariant, !map_map. f_equal.
  apply map_ext. intros i. unfold domain_value_seq.
  rewrite (@chunked_value _ _ _ redfunc _), chunks_of_concat. reflexivity.
Qed.

(** For a sequence that starts at 0 the [TSeq] overload calls the work
    function once on every index and returns what the sequential executor
    returns. *)
Lemma numa_MapReduce_seq_from_zero (e : Z) (w : World Z) :
  1 <= TNUMAExecutor.fNDomains numa ->
  1 <= e ->
  e + TNUMAExecutor.fNDomains numa - 1 < 2 ^ 32 ->
  fst (TNUMAExecutor.MapReduce_seq numa (invoke (fun i => Ret (g i))) (mkTSeq 0 e)
         redfunc nChunks w)
  = Ret (redfunc (map g (TSeq_items (mkTSeq 0 e))))
  /\ calls (snd (TNUMAExecutor.MapReduce_seq numa (invoke (fun i => Ret (g i)))
                   (mkTSeq 0 e) redfunc nChunks w))
     = rev (TSeq_items (mkTSeq 0 e)) ++ calls w.
Proof.
  intros HD He Hr. rewrite numa_MapReduce_seq_value. cbn [fst snd].
  rewrite domain_steps_seq_calls, domain_items_from_zero by assumption.
  split; reflexivity.
Qed.
End NUMA_seq_value.

(** C5 (split of an integer sequence), on the code: the sub-sequence of
    domain [i] is [[max(begin, i*stride), min((i+1)*stride, end))], the
    multiples of the stride not being offset by [begin]. For the sequence
    [[10, 20)] and two domains the stride is 5 and the two sub-sequences are
    [[10, 5)] and [[10, 10)]: they hold no index, no work item is processed
    and the sum of the indices comes out as 0, where the sequential executor
    gives 145 after one call per index. *)
Theorem numa_seq_split_ignores_begin :
  let numa := TNUMAExecutor.ctor (P := two_node_machine) 8 in
  let args := mkTSeq 10 20 in
  TNUMAExecutor.fNDomains numa = 2
  /\ TNUMAExecutor.seq_stride numa args = 5
  /\ TNUMAExecutor.domain_sequence numa args 0 = mkTSeq 10 5
  /\ TNUMAExecutor.domain_sequence numa args 1 = mkTSeq 10 10
  /\ concat (map (domain_items numa args)
                 (TSeq_items (TSeq_upto (TNUMAExecutor.fNDomains numa)))) = []
  /\ TNUMAExecutor.MapReduce_seq (P := two_node_machine) numa
       (invoke (fun i => Ret i)) args sumZ 0 (mkWorld AllNodes [])
     = (Ret 0, mkWorld AllNodes [])
  /\ TSequentialExecutor.MapReduce TSequentialExecutor.mk
       (invoke (fun i => Ret i)) (TSeq_items args) sumZ (mkWorld AllNodes [])
     = (Ret 145, mkWorld AllNodes [19; 18; 17; 16; 15; 14; 13; 12; 11; 10]).
Proof. vm_compute. repeat split. Qed.

(** ** The fit evaluators *)

Section FitUtil_claims.
Context {P : Platform} {T D : Type} {Ar : Arith T D}.
Variable setAutomaticChunking : Z -> Z.

Lemma run_counted_returns {R} (call : M Z R) (st : FitUtil.FitState) (r : R) (w : World Z) :
  call (mkWorld AllNodes []) = (Ret r, w) ->
  FitUtil.run_counted call st
  = (Ret r, FitUtil.count_points (Z.of_nat (length (calls w))) st).
Proof. intros H. unfold FitUtil.run_counted. now rewrite H. Qed.

(** The dispatch of [EvalLogL] always returns sums; it keeps the messages
    reported so far. *)
Lemma logl_sums_returns (func : FitUtil.Model T D) (data : FitUtil.UnBinData)
    (iWeight : Z) (extended : bool) (executionPolicy nChunks : Z)
    (st : FitUtil.FitState) :
  exists sums st1,
    FitUtil.logl_sums setAutomaticChunking func data iWeight extended
      executionPolicy nChunks st = (Ret sums, st1).
Proof.
  unfold FitUtil.logl_sums. cbv zeta.
  destruct (executionPolicy =? 0); [eexists _, _; reflexivity|].
  destruct (executionPolicy =? 1).
  { destruct (numa_MapReduce_seq_run (TNUMAExecutor.ctor 4)
                (FitUtil.logl_mapValue func iWeight extended)
                (mkTSeq 0 (FitUtil.ub_Size data / VectorSize))
                (accumulate FitUtil.laux_add FitUtil.laux_zero)
                (if negb (nChunks =? 0) then nChunks
                 else setAutomaticChunking (FitUtil.ub_Size data / VectorSize))
                (mkWorld AllNodes [])) as [r Hr].
    eexists _, _. unfold FitUtil.run_counted. rewrite Hr. reflexivity. }
  destruct (executionPolicy =? 2); eexists _, _; reflexivity.
Qed.

Lemma chi2_sum_returns (func : FitUtil.Model T D) (data : FitUtil.BinData)
    (executionPolicy nChunks : Z) (st : FitUtil.FitState) :
  exists res st1,
    FitUtil.chi2_sum setAutomaticChunking func data executionPolicy nChunks st
    = (Ret res, st1).
Proof.
  unfold FitUtil.chi2_sum. cbv zeta.
  destruct (executionPolicy =? 0); [eexists _, _; reflexivity|].
  destruct (executionPolicy =? 1); [|eexists _, _; reflexivity].
  destruct (numa_MapReduce_seq_run (TNUMAExecutor.ctor 0)
              (FitUtil.chi2_at func)
              (mkTSeq 0 (FitUtil.b_Size data / VectorSize))
              (accumulate vadd vzero)
              (if negb (nChunks =? 0) then nChunks
               else setAutomaticChunking (FitUtil.b_Size data / VectorSize))
              (mkWorld AllNodes [])) as [r Hr].
  eexists _, _. unfold FitUtil.run_counted. rewrite Hr. reflexivity.
Qed.

(** C10, as amended ([nPoints] on return). Every call of [EvalLogL]
    returns; when it reaches the end of the function [nPoints] is 0 on
    return, whatever the execution policy, the data size and the number of
    items evaluated; when it takes the early [return 0] of the extended
    term (no range set and a function that is not zero at infinity)
    [nPoints] is left as the evaluated items counted it. Every call of
    [EvalChi2] returns with [nPoints] set to [data.Size()]. *)
Theorem EvalLogL_nPoints (func : FitUtil.Model T D) (data : FitUtil.UnBinData)
    (iWeight : Z) (extended : bool) (executionPolicy nChunks : Z)
    (st : FitUtil.FitState)
    (bdata : FitUtil.BinData) (bPolicy bChunks : Z) (bst : FitUtil.FitState) :
  (exists v st',
     FitUtil.EvalLogL setAutomaticChunking func data iWeight extended
       executionPolicy nChunks st = (Ret v, st')
     /\ (early_return func data extended = false -> FitUtil.nPoints st' = 0)
     /\ (early_return func data extended = true ->
         v = dzero
         /\ FitUtil.nPoints st'
            = FitUtil.nPoints
                (snd (FitUtil.logl_sums setAutomaticChunking func data iWeight
                        extended executionPolicy nChunks st))))
  /\ (exists v st',
        FitUtil.EvalChi2 setAutomaticChunking func bdata bPolicy bChunks bst
        = (Ret v, st')
        /\ FitUtil.nPoints st' = FitUtil.b_Size bdata).
Proof.
  split.
  - unfold FitUtil.EvalLogL, early_return, FitUtil.logl_nuTot.
    destruct (logl_sums_returns func data iWeight extended executionPolicy nChunks st)
      as (sums & st1 & ->). cbn [snd].
    destruct extended; cbn [andb].
    + destruct (0 <? FitUtil.ub_RangeSize data); cbn [negb].
      * eexists _, _. split; [reflexivity|]. split; [reflexivity | discriminate].
      * destruct (FitUtil.nonzero_at_infinity func).
        -- eexists _, _. split; [reflexivity|]. split; [discriminate|].
           intros _. split; reflexivity.
        -- eexists _, _. split; [reflexivity|]. split; [reflexivity | discriminate].
    + eexists _, _. split; [reflexivity|]. split; [reflexivity | discriminate].
  - unfold FitUtil.EvalChi2. cbv zeta.
    match goal with
    | |- context [FitUtil.chi2_sum _ _ _ _ _ ?s] =>
        destruct (chi2_sum_returns func bdata bPolicy bChunks s) as (res & st1 & ->)
    end.
    eexists _, _. split; reflexivity.
Qed.

(** C3 (unsupported and unavailable backends), on the code. In [EvalLogL]
    the execution policy 2 (MultiProcess), whose backend is not available
    there, is skipped silently: no work item is evaluated, nothing is
    reported, and the call returns the value of empty sums. The sibling
    [EvalChi2] reports the policy 2 with the error it reports for an
    unknown policy, and so does [EvalLogL] for the policy 3. *)
Theorem EvalLogL_multiprocess_policy_skipped (func : FitUtil.Model T D)
    (data : FitUtil.UnBinData) (iWeight : Z) (extended : bool) (nChunks : Z)
    (st : FitUtil.FitState) (bdata : FitUtil.BinData) (bst : FitUtil.FitState) :
  FitUtil.logl_sums setAutomaticChunking func data iWeight extended 2 nChunks st
  = (Ret FitUtil.laux_zero, st)
  /\ FitUtil.EvalLogL setAutomaticChunking func data iWeight false 2 nChunks st
     = (Ret (dneg (lanes_sum vzero)), FitUtil.set_nPoints 0 st)
  /\ FitUtil.errors (snd (FitUtil.EvalLogL setAutomaticChunking func data iWeight
                            false 2 nChunks st))
     = FitUtil.errors st
  /\ In ("FitUtil::EvaluateChi2"%string, FitUtil.policy_unknown)
        (FitUtil.errors (snd (FitUtil.EvalChi2 setAutomaticChunking func bdata 2
                                nChunks bst)))
  /\ In ("FitUtil::EvaluateLogL"%string, FitUtil.policy_unknown)
        (FitUtil.errors (snd (FitUtil.EvalLogL setAutomaticChunking func data iWeight
                                false 3 nChunks st))).
Proof.
  repeat split.
  - cbn. apply in_or_app. right. now left.
  - cbn. apply in_or_app. right. now left.
Qed.
End FitUtil_claims.

(** C10 as stated fails on the code: this call of [EvalLogL] (extended
    likelihood, no range set, a function that is not zero at infinity, three
    points evaluated serially) returns 0 normally with [nPoints] equal to 3. *)
Lemma EvalLogL_early_return_keeps_nPoints :
  let func := FitUtil.mkModel (fun i => i) (fun _ => 1) (fun i => i) true (fun _ => 1) 1 in
  let data := FitUtil.mkUnBinData 3 0 in
  FitUtil.EvalLogL (P := two_node_machine) (Ar := Z_Arith) (fun n => n) func data
    0 true 0 0 (FitUtil.mkFitState 0 [])
  = (Ret 0,
     FitUtil.mkFitState 3
       [("FitUtil::EvaluateLogLikelihood"%string,
         "A range has not been set and the function is not zero at +/- inf"%string)])
  /\ FitUtil.nPoints
       (snd (FitUtil.EvalLogL (P := two_node_machine) (Ar := Z_Arith) (fun n => n) func data
               0 true 0 0 (FitUtil.mkFitState 0 []))) <> 0.
Proof. vm_compute. split; [reflexivity | discriminate]. Qed.

(** ** The facade on examples *)

(** The chunked [Map] of the multithread policy gives one partial value per
    chunk, the plain [Map] of the other policies one result per item. *)
Example chunked_Map_observable :
  TExecutor.MapChunked (P := two_node_machine) multithread_executor
    (invoke (fun x => Ret (x * x))) [1; 2; 3; 4] sumZ 2 (mkWorld AllNodes [])
  = (Ret [5; 25], mkWorld AllNodes [4; 3; 2; 1])
  /\ TExecutor.MapChunked (P := two_node_machine) multiprocess_executor
       (invoke (fun x => Ret (x * x))) [1; 2; 3; 4] sumZ 2 (mkWorld AllNodes [])
     = (Ret [1; 4; 9; 16], mkWorld AllNodes [4; 3; 2; 1]).
Proof. vm_compute. split; reflexivity. Qed.

Lemma chunked_Map_forwarding_witness :
  TExecutor.ctor (P := two_node_machine) kMultithread 0 = Ret multithread_executor
  /\ TExecutor.MapReduce (P := two_node_machine) multithread_executor
       (invoke (fun x => Ret (x * x))) [1; 2; 3; 4] sumZ 2
     = TThreadExecutorImpl.MapReduce (P := two_node_machine) (TThreadExecutorImpl.mk 0)
         (invoke (fun x => Ret (x * x))) [1; 2; 3; 4] sumZ 2.
Proof.
  assert (H : TExecutor.ctor (P := two_node_machine) kMultithread 0
              = Ret multithread_executor) by reflexivity.
  split; [exact H|].
  destruct (@chunked_Map_forwarding two_node_machine Z Z Z kMultithread 0 _
              (invoke (fun x => Ret (x * x))) [1; 2; 3; 4] sumZ 2 H) as [HT _].
  apply HT. reflexivity.
Defined.



(** * Further properties of the code *)

(** ** The facade: construction *)

Section Facade_construction.
Context {P : Platform}.

(** X1. The constructor of the facade ends in one of two ways: it throws
    [std::invalid_argument], with the message on the missing IMT support,
    exactly when the multithread policy is requested in a build without
    [R__USE_IMT]; in every other case it returns an executor. *)
Theorem ctor_configuration_error (execPolicy : ExecutionPolicy) (n : Z) :
  (TExecutor.ctor execPolicy n
   = Throw (invalid_argument
              "kMultithread policy not available when ROOT is compiled with IMT=OFF.")
   <-> (execPolicy = kMultithread /\ R__USE_IMT = false))
  /\ ((exists self, TExecutor.ctor execPolicy n = Ret self)
      <-> (execPolicy <> kMultithread \/ R__USE_IMT = true))
  /\ (forall e, TExecutor.ctor execPolicy n = Throw e ->
        e = invalid_argument
              "kMultithread policy not available when ROOT is compiled with IMT=OFF.").
Proof.
  unfold TExecutor.ctor. destruct execPolicy; destruct R__USE_IMT; repeat split;
    try discriminate; try (intros [? ?]; discriminate); try (intros [? H]; discriminate);
    try (intros; eexists; reflexivity); try (intros; now left); try (intros; now right);
    try (intros [H|H]; congruence); try (intros e H; now inversion H); tauto.
Qed.

(** X2. A constructed executor remembers the policy it was asked for and
    owns the pool of that policy and no other pool: [Policy()] returns the
    requested policy, and of the three pool pointers exactly the one of that
    policy is set, to a pool made with the requested number of workers. *)
Theorem ctor_owns_pool_of_policy (execPolicy : ExecutionPolicy) (n : Z)
    (self : TExecutor.t) :
  TExecutor.ctor execPolicy n = Ret self ->
  TExecutor.Policy self = execPolicy
  /\ TExecutor.fSeqPool self
     = (if match execPolicy with kSerial => true | _ => false end
        then Some TSequentialExecutor.mk else None)
  /\ TExecutor.fThreadPool self
     = (if match execPolicy with kMultithread => true | _ => false end
        then Some (TThreadExecutorImpl.mk n) else None)
  /\ TExecutor.fProcPool self
     = (if match execPolicy with kMultiprocess => true | _ => false end
        then Some (TProcessExecutor.mk n) else None).
Proof.
  intros H. apply ctor_inv in H.
  destruct execPolicy; [subst self | destruct H as [_ ->] | subst self];
    repeat split; reflexivity.
Qed.

(** X3. The default constructor picks the multithread policy when implicit
    multithreading is enabled and the serial policy otherwise; it fails,
    with the configuration error, only when implicit multithreading is
    enabled in a build without [R__USE_IMT]. *)
Theorem ctor_default_policy (n : Z) :
  (IsImplicitMTEnabled = true /\ R__USE_IMT = false
   /\ exists what, TExecutor.ctor_default n = Throw (invalid_argument what))
  \/ (exists self,
        TExecutor.ctor_default n = Ret self
        /\ TExecutor.Policy self
           = (if IsImplicitMTEnabled then kMultithread else kSerial)
        /\ (IsImplicitMTEnabled = false \/ R__USE_IMT = true)).
Proof.
  unfold TExecutor.ctor_default, TExecutor.ctor.
  destruct IsImplicitMTEnabled; [destruct R__USE_IMT|].
  - right. eexists. repeat split. now right.
  - left. repeat split. eexists. reflexivity.
  - right. eexists. repeat split. now left.
Qed.
End Facade_construction.

Lemma ctor_owns_pool_of_policy_witness :
  TExecutor.ctor (P := two_node_machine) kMultiprocess 3
  = Ret (TExecutor.mk kMultiprocess None (Some (TProcessExecutor.mk 3)) None)
  /\ TExecutor.Policy (TExecutor.mk kMultiprocess None (Some (TProcessExecutor.mk 3)) None)
     = kMultiprocess
  /\ TExecutor.fProcPool (TExecutor.mk kMultiprocess None (Some (TProcessExecutor.mk 3)) None)
     = Some (TProcessExecutor.mk 3).
Proof.
  assert (H : TExecutor.ctor (P := two_node_machine) kMultiprocess 3
              = Ret (TExecutor.mk kMultiprocess None (Some (TProcessExecutor.mk 3)) None))
    by reflexivity.
  destruct (@ctor_owns_pool_of_policy two_node_machine kMultiprocess 3 _ H)
    as (H1 & _ & _ & H4).
  exact (conj H (conj H1 H4)).
Defined.

(** ** The facade: calls *)

Lemma steps_log_world {A} (l : list A) (w : World A) :
  steps log_call l w = mkWorld (affinity w) (rev l ++ calls w).
Proof.
  unfold steps. revert w. induction l as [|x xs IH]; intros w; simpl.
  - now destruct w.
  - rewrite IH. simpl. now rewrite <- app_assoc.
Qed.

(** The first failing item stops the loop with its exception. *)
Lemma mapM_invoke_throws {I R} (f : I -> Outcome R) (l : list I) (x : I) (e : Exn)
    (w : World I) :
  In x l -> f x = Throw e ->
  exists e' w' y, mapM (invoke f) l w = (Throw e', w') /\ In y l /\ f y = Throw e'.
Proof.
  revert w. induction l as [|y ys IH]; intros w Hin Hx; [contradiction|].
  cbn [mapM]. unfold bind at 1. unfold invoke at 1.
  destruct (f y) as [r|e0] eqn:Hy.
  - destruct Hin as [->|Hin]; [congruence|].
    destruct (IH (log_call y w) Hin Hx) as (e' & w' & z & Hrun & Hz & Hfz).
    exists e', w', z. unfold bind. rewrite Hrun. repeat split; [now right | assumption].
  - exists e0, (log_call y w), y. repeat split; [now left | assumption].
Qed.

Section Facade_calls.
Context {P : Platform} {I R : Type}.
Variables (execPolicy : ExecutionPolicy) (n : Z) (self : TExecutor.t).

(** X4. [Map] of a constructed executor, with a work function that always
    returns, gives one result per item, in the order of the items, after
    calling the function once on every item; this holds under every policy,
    for the vector, the [TSeq] and the [nTimes] form. *)
Theorem facade_Map_in_order (g : I -> R) (args : list I) (w : World I)
    (h : Z -> R) (s : TSeq) (wz : World Z) (v : R) (nTimes : Z) (wu : World unit) :
  TExecutor.ctor execPolicy n = Ret self ->
  TExecutor.Map self (invoke (fun x => Ret (g x))) args w
  = (Ret (map g args), mkWorld (affinity w) (rev args ++ calls w))
  /\ TExecutor.Map_seq self (invoke (fun i => Ret (h i))) s wz
     = (Ret (map h (TSeq_items s)),
        mkWorld (affinity wz) (rev (TSeq_items s) ++ calls wz))
  /\ TExecutor.Map_nTimes self (invoke (fun _ : unit => Ret v) tt) nTimes wu
     = (Ret (repeat v (Z.to_nat nTimes)),
        mkWorld (affinity wu) (repeat tt (Z.to_nat nTimes) ++ calls wu)).
Proof.
  intros H.
  assert (HM : forall (J : Type) (k : J -> R) (l : list J) (wj : World J),
    TExecutor.Map self (invoke (fun x => Ret (k x))) l wj
    = (Ret (map k l), mkWorld (affinity wj) (rev l ++ calls wj))).
  { intros J k l wj. rewrite (Map_dispatch _ _ _ l H).
    assert (E : mapM (invoke (fun x => Ret (k x))) l wj
                = (Ret (map k l), steps log_call l wj))
      by (apply mapM_run; reflexivity).
    rewrite steps_log_world in E. destruct execPolicy; exact E. }
  split; [apply HM | split; [apply HM|]].
  unfold TExecutor.Map_nTimes. rewrite (Map_dispatch _ _ _ _ H).
  assert (E : mapM (fun _ : unit => invoke (fun _ : unit => Ret v) tt)
                (nTimes_items nTimes) wu
              = (Ret (map (fun _ => v) (nTimes_items nTimes)),
                 steps (fun _ w => log_call tt w) (nTimes_items nTimes) wu))
    by (apply mapM_run; reflexivity).
  rewrite map_const_repeat, nTimes_items_length in E.
  assert (S : forall (l : list unit) (w1 : World unit),
    steps (fun _ w => log_call tt w) l w1
    = mkWorld (affinity w1) (repeat tt (length l) ++ calls w1)).
  { unfold steps. induction l as [|u l IH]; intros w1; simpl.
    - now destruct w1.
    - rewrite IH. simpl. f_equal.
      change (tt :: calls w1) with ([tt] ++ calls w1).
      rewrite app_assoc. f_equal. clear. induction (length l); simpl; [reflexivity|].
      now f_equal. }
  rewrite S, nTimes_items_length in E.
  destruct execPolicy; exact E.
Qed.

(** X5. [MapReduce] of a constructed executor, with a work function that
    always returns and a reduction function that is invariant under chunking
    and insensitive to the order of its arguments, returns the reduction of
    the results of all the items, after calling the work function exactly
    once on every item; under every policy and for every chunk hint. *)
Theorem facade_MapReduce_reduces_all (g : I -> R) (args : list I)
    (redfunc : list R -> R) (nChunks : Z) (w : World I) :
  ReductionFunction redfunc ->
  order_insensitive redfunc ->
  TExecutor.ctor execPolicy n = Ret self ->
  exists w' : World I,
    TExecutor.MapReduce self (invoke (fun x => Ret (g x))) args redfunc nChunks w
    = (Ret (redfunc (map g args)), w')
    /\ Permutation (calls w') (args ++ calls w)
    /\ affinity w' = affinity w.
Proof.
  intros RF _ H.
  rewrite (MapReduce_sequential _ _ (invoke (fun x => Ret (g x))) args nChunks H w).
  unfold TSequentialExecutor.MapReduce, TSequentialExecutor.Map, bind.
  rewrite (mapM_run _ g log_call) by reflexivity.
  rewrite steps_log_world. eexists. split; [reflexivity|]. cbn [calls affinity].
  split; [|reflexivity].
  apply Permutation_app_tail, Permutation_sym, Permutation_rev.
Qed.

(** X6. When the work function throws on one of the items, [Map] and
    [MapReduce] of a constructed executor do not return: they end with the
    exception of a failing item, under every policy and for every reduction
    function and chunk hint. *)
Theorem facade_failure_propagates (f : I -> Outcome R) (args : list I)
    (redfunc : list R -> R) (nChunks : Z) (w : World I) (x : I) (e : Exn) :
  TExecutor.ctor execPolicy n = Ret self ->
  In x args ->
  f x = Throw e ->
  exists (e' : Exn) (y : I),
    In y args /\ f y = Throw e'
    /\ fst (TExecutor.Map self (invoke f) args w) = Throw e'
    /\ fst (TExecutor.MapReduce self (invoke f) args redfunc nChunks w) = Throw e'.
Proof.
  intros H Hin Hx.
  destruct (@mapM_invoke_throws I R f args x e w Hin Hx) as (e' & w' & y & Hrun & Hy & Hfy).
  exists e', y. split; [assumption|]. split; [assumption|].
  rewrite (Map_dispatch _ _ _ args H). unfold TExecutor.MapReduce.
  rewrite (MapChunked_dispatch _ _ _ args redfunc nChunks H).
  assert (Hplain : fst ((objs <- mapM (invoke f) args ;; ret (Reduce objs redfunc)) w)
                   = Throw e') by (unfold bind; now rewrite Hrun).
  assert (Hchunked : forall pool,
    fst ((objs <- TThreadExecutorImpl.MapChunked pool (invoke f) args redfunc nChunks ;;
          ret (Reduce objs redfunc)) w) = Throw e').
  { intros pool. unfold TThreadExecutorImpl.MapChunked.
    rewrite (chunked_reduce_throws (invoke f) redfunc _ w (w' := w') (e := e')).
    - reflexivity.
    - now rewrite chunks_of_concat. }
  destruct execPolicy.
  - unfold TSequentialExecutor.Map. rewrite Hrun. split; [reflexivity | exact Hplain].
  - unfold TThreadExecutorImpl.Map. rewrite Hrun. split; [reflexivity | apply Hchunked].
  - unfold TProcessExecutor.Map. rewrite Hrun. split; [reflexivity | exact Hplain].
Qed.
End Facade_calls.

(** ** The NUMA executor: construction *)

(** X7. The constructor [TNUMAExecutor(unsigned nThreads)] stores one
    domain per NUMA node and, as the thread count of a domain, the floor of
    [nThreads / fNDomains]: the stored counts of all the domains together
    do not exceed [nThreads] and miss it by less than [fNDomains]. The
    stored count is 0 exactly when fewer threads than domains are requested;
    the domain tasks build their pools from the stored count, and a pool
    built with 0 takes the hardware default, so that every domain pool then
    has [hardware_concurrency] threads and not fewer than requested. *)
Theorem numa_ctor_thread_share {P : Platform} (nThreads : Z) :
  0 <= numa_max_node ->
  numa_max_node + 1 < 2 ^ 32 ->
  0 <= nThreads < 2 ^ 32 ->
  let self := TNUMAExecutor.ctor_nThreads nThreads in
  TNUMAExecutor.GetNUMADomains self = numa_max_node + 1
  /\ TNUMAExecutor.fDomainNThreads self = nThreads / (numa_max_node + 1)
  /\ TNUMAExecutor.fNDomains self * TNUMAExecutor.fDomainNThreads self <= nThreads
  /\ nThreads < TNUMAExecutor.fNDomains self * TNUMAExecutor.fDomainNThreads self
                + TNUMAExecutor.fNDomains self
  /\ (TNUMAExecutor.fDomainNThreads self = 0 <-> nThreads < TNUMAExecutor.fNDomains self)
  /\ TThreadExecutorImpl.GetPoolSize
       (TThreadExecutorImpl.mk (TNUMAExecutor.fDomainNThreads self))
     = (if nThreads <? TNUMAExecutor.fNDomains self
        then hardware_concurrency
        else nThreads / TNUMAExecutor.fNDomains self).
Proof.
  intros Hn Hmax Ht self. unfold self, TNUMAExecutor.ctor_nThreads, TNUMAExecutor.GetNUMADomains.
  unfold TThreadExecutorImpl.GetPoolSize.
  cbn [TNUMAExecutor.fNDomains TNUMAExecutor.fDomainNThreads TThreadExecutorImpl.fNThreads].
  rewrite (@u32_small (numa_max_node + 1)), (@u32_small nThreads) by lia.
  set (D := numa_max_node + 1). assert (HD : 0 < D) by (unfold D; lia).
  pose proof (Z.div_mod nThreads D ltac:(lia)) as E.
  pose proof (Z.mod_pos_bound nThreads D HD) as B.
  assert (Hzero : nThreads / D = 0 <-> nThreads < D).
  { split.
    - intros H0. rewrite H0 in E. lia.
    - intros Hlt. apply Z.div_small. lia. }
  split; [reflexivity|]. split; [reflexivity|]. split; [lia|]. split; [lia|].
  split; [exact Hzero|].
  destruct (Z.ltb_spec nThreads D) as [Hlt|Hge].
  - replace (nThreads / D) with 0 by (symmetry; now apply Hzero). reflexivity.
  - destruct (Z.eqb_spec (nThreads / D) 0) as [H0|_]; [|reflexivity].
    apply Hzero in H0. lia.
Qed.

Lemma numa_ctor_thread_share_witness :
  0 <= numa_max_node (Platform := two_node_machine)
  /\ numa_max_node (Platform := two_node_machine) + 1 < 2 ^ 32
  /\ 0 <= 1 < 2 ^ 32
  /\ TNUMAExecutor.ctor_nThreads (P := two_node_machine) 1 = TNUMAExecutor.mk 2 0
  /\ TThreadExecutorImpl.GetPoolSize (P := two_node_machine) (TThreadExecutorImpl.mk 0) = 8.
Proof.
  assert (H1 : 0 <= numa_max_node (Platform := two_node_machine)) by (simpl; lia).
  assert (H2 : numa_max_node (Platform := two_node_machine) + 1 < 2 ^ 32) by (simpl; lia).
  assert (H3 : 0 <= 1 < 2 ^ 32) by lia.
  destruct (@numa_ctor_thread_share two_node_machine 1 H1 H2 H3) as (_ & _ & _ & _ & _ & A).
  exact (conj H1 (conj H2 (conj H3 (conj eq_refl A)))).
Defined.

(** ** The NUMA executor: [splitData], span by span *)

Lemma TSeq_items_cons (a b : Z) :
  a < b -> TSeq_items (mkTSeq a b) = a :: TSeq_items (mkTSeq (a + 1) b).
Proof.
  intros H. rewrite <- (TSeq_items_app (a := a) (b := a + 1) (c := b)) by lia.
  unfold TSeq_items at 1. cbn [seq_begin seq_end].
  replace (Z.to_nat (a + 1 - a)) with 1%nat by lia. simpl. f_equal. f_equal. lia.
Qed.

Section SplitData_spans.
Variables (size stride : Z).
Hypothesis stride_pos : 1 <= stride.
Hypothesis stride_le : stride <= size.
Hypothesis size_u32 : size < 2 ^ 32.

(** The loop pushes the full spans of the indices from [i] on. *)
Lemma splitData_loop_spans (fuel : nat) :
  forall (i : Z) (v : list Span),
    0 <= i -> i * stride < size ->
    (1 + Z.to_nat (size - (i * stride + stride)) <= fuel)%nat ->
    exists i' : Z,
      TNUMAExecutor.splitData_loop fuel size stride i v
      = Some (i', v ++ map (fun j => (j * stride, j * stride + stride))
                           (TSeq_items (mkTSeq i i')))
      /\ i <= i' /\ i' * stride < size <= i' * stride + stride.
Proof.
  induction fuel as [|fuel IH]; intros i v Hi Hlt Hfuel; [lia|].
  cbn [TNUMAExecutor.splitData_loop].
  assert (Hm : 0 <= i * stride) by nia.
  rewrite (@u32_small (i * stride)) by lia.
  rewrite (@u64_small (size - stride))
    by (change (2 ^ 64) with 18446744073709551616;
        change (2 ^ 32) with 4294967296 in size_u32; lia).
  destruct (Z.ltb_spec (i * stride) (size - stride)) as [Hgo|Hstop].
  - assert (E : (i + 1) * stride = i * stride + stride) by ring.
    rewrite E. rewrite (@u32_small (i * stride + stride)) by lia.
    assert (Hi1 : i + 1 <= i * stride + stride) by nia.
    rewrite (@u32_small (i + 1)) by lia.
    destruct (IH (i + 1) (v ++ [(i * stride, i * stride + stride)]))
      as (i' & Hrun & Hle & Hexit); try (rewrite ?E; lia).
    exists i'. rewrite Hrun. split; [|lia].
    rewrite (@TSeq_items_cons i i') by lia. cbn [map]. now rewrite <- app_assoc.
  - exists i. rewrite TSeq_items_empty by lia. cbn [map]. rewrite app_nil_r.
    split; [reflexivity | lia].
Qed.
End SplitData_spans.

Lemma stride_spans_chain (stride size : Z) (n : nat) :
  1 <= stride -> Z.of_nat n * stride < size ->
  chain 0 (stride_spans stride (Z.of_nat n + 1) size) size.
Proof.
  intros Hs Hlt. unfold stride_spans.
  replace (Z.of_nat n + 1 - 1) with (Z.of_nat n) by lia.
  apply chain_snoc; [|assumption]. clear Hlt.
  induction n as [|n IH].
  - constructor.
  - rewrite TSeq_upto_succ, map_app. cbn [map].
    replace (Z.of_nat (S n) * stride) with (Z.of_nat n * stride + stride) by lia.
    apply chain_snoc; [assumption | lia].
Qed.

Lemma span_items_length {T} (vec : list T) (a b : Z) :
  0 <= a <= b -> b <= Z.of_nat (length vec) ->
  Z.of_nat (length (span_items vec (a, b))) = b - a.
Proof.
  intros H1 H2. unfold span_items. cbn [fst snd].
  rewrite length_firstn, length_skipn. lia.
Qed.

(** What [splitData] returns, in closed form. *)
Lemma splitSpans_closed_form (self : TNUMAExecutor.t) (size : Z) :
  1 <= size ->
  1 <= TNUMAExecutor.fNDomains self ->
  size + TNUMAExecutor.fNDomains self - 1 < 2 ^ 32 ->
  let stride := (size + TNUMAExecutor.fNDomains self - 1) / TNUMAExecutor.fNDomains self in
  let k := (size + stride - 1) / stride in
  1 <= stride <= size
  /\ 1 <= k <= TNUMAExecutor.fNDomains self
  /\ (k - 1) * stride < size <= k * stride
  /\ forall fuel, (Z.to_nat size <= fuel)%nat ->
       TNUMAExecutor.splitSpans self fuel size = Some (stride_spans stride k size).
Proof.
  intros Hsize HD Hrange stride k.
  destruct (ceil_stride Hsize HD) as (Hs1 & Hs2 & Hs3). fold stride in Hs1, Hs2, Hs3.
  assert (Hk : (k - 1) * stride < size <= k * stride).
  { unfold k. pose proof (Z.div_mod (size + stride - 1) stride ltac:(lia)) as E.
    pose proof (Z.mod_pos_bound (size + stride - 1) stride ltac:(lia)) as B. nia. }
  split; [lia|]. split; [nia|]. split; [exact Hk|].
  intros fuel Hfuel. unfold TNUMAExecutor.splitSpans.
  rewrite (@u32_small size), (@u32_small (size + TNUMAExecutor.fNDomains self - 1)) by lia.
  fold stride.
  destruct (@splitData_loop_spans size stride Hs1 Hs2 ltac:(lia) fuel 0 [])
    as (i' & Hrun & Hi' & Hexit); try lia.
  rewrite Hrun. assert (i' = k - 1) by nia. subst i'.
  rewrite (@u32_small ((k - 1) * stride)) by nia. reflexivity.
Qed.

Section SplitData_extras.
Context {T : Type}.

(** X8. [splitData] of an empty vector returns one span, the empty one,
    whatever the number of domains. *)
Theorem splitData_empty_vector (self : TNUMAExecutor.t) (fuel : nat) :
  1 <= TNUMAExecutor.fNDomains self < 2 ^ 32 ->
  TNUMAExecutor.splitSpans self (S fuel) 0 = Some [(0, 0)]
  /\ TNUMAExecutor.splitData self (S fuel) (@nil T) = Some [[]].
Proof.
  intros HD.
  assert (E : TNUMAExecutor.splitSpans self (S fuel) 0 = Some [(0, 0)]).
  { unfold TNUMAExecutor.splitSpans. change (u32 0) with 0.
    replace (0 + TNUMAExecutor.fNDomains self - 1) with (TNUMAExecutor.fNDomains self - 1)
      by lia.
    rewrite (@u32_small (TNUMAExecutor.fNDomains self - 1)) by lia.
    rewrite Z.div_small by lia. reflexivity. }
  split; [exact E|]. unfold TNUMAExecutor.splitData. cbn [length Z.of_nat].
  rewrite E. reflexivity.
Qed.

(** X9. For a non-empty vector within the [unsigned] range, [splitData]
    returns [k] spans where [k] is the ceiling of [size / stride] and
    [stride] the ceiling of [size / fNDomains]: the first [k - 1] spans hold
    exactly [stride] elements each, starting at the multiples of [stride],
    and the last span holds the remaining [size - (k-1)*stride] elements,
    at least one and at most [stride]. *)
Theorem splitData_span_sizes (self : TNUMAExecutor.t) (vec : list T) :
  vec <> [] ->
  1 <= TNUMAExecutor.fNDomains self ->
  Z.of_nat (length vec) + TNUMAExecutor.fNDomains self - 1 < 2 ^ 32 ->
  let size := Z.of_nat (length vec) in
  let stride := (size + TNUMAExecutor.fNDomains self - 1) / TNUMAExecutor.fNDomains self in
  let k := (size + stride - 1) / stride in
  exists dataRanges : list (list T),
    (forall fuel, (length vec <= fuel)%nat ->
       TNUMAExecutor.splitData self fuel vec = Some dataRanges)
    /\ dataRanges = map (span_items vec) (stride_spans stride k size)
    /\ map (fun range => Z.of_nat (length range)) dataRanges
       = repeat stride (Z.to_nat (k - 1)) ++ [size - (k - 1) * stride]
    /\ 1 <= size - (k - 1) * stride <= stride
    /\ 1 <= k <= TNUMAExecutor.fNDomains self.
Proof.
  intros Hvec HD Hrange size stride k.
  assert (Hsize : 1 <= size) by (destruct vec; [contradiction | unfold size; simpl; lia]).
  destruct (@splitSpans_closed_form self size Hsize HD Hrange) as (Hs & Hk & Hlast & Hrun).
  fold stride in Hs, Hk, Hlast, Hrun. fold k in Hk, Hlast, Hrun.
  exists (map (span_items vec) (stride_spans stride k size)).
  split; [|split; [reflexivity | split; [|split; [lia | exact Hk]]]].
  - intros fuel Hfuel. unfold TNUMAExecutor.splitData. fold size.
    rewrite Hrun by (unfold size; lia). reflexivity.
  - unfold stride_spans. rewrite !map_app, !map_map. cbn [map]. f_equal.
    + replace (Z.to_nat (k - 1)) with (length (TSeq_items (TSeq_upto (k - 1))))
        by (rewrite TSeq_items_length; cbn [seq_begin seq_end TSeq_upto]; f_equal; lia).
      rewrite <- (map_const_repeat stride (TSeq_items (TSeq_upto (k - 1)))).
      apply map_ext_in. intros j Hj. unfold TSeq_items, TSeq_upto in Hj.
      cbn [seq_begin seq_end] in Hj. apply in_map_iff in Hj.
      destruct Hj as (m & <- & Hm). apply in_seq in Hm.
      rewrite span_items_length; fold size; nia.
    + f_equal. rewrite span_items_length; fold size; nia.
Qed.
End SplitData_extras.

(** ** The NUMA executor: the vector overload *)

Lemma mapM_run_in {I A B} (f : A -> M I B) (g : A -> B) (step : A -> World I -> World I)
    (l : list A) :
  (forall x, In x l -> forall w, f x w = (Ret (g x), step x w)) ->
  forall w, mapM f l w = (Ret (map g l), steps step l w).
Proof.
  induction l as [|x xs IH]; intros Hf w; simpl.
  - reflexivity.
  - unfold bind. rewrite Hf by (now left).
    rewrite IH by (intros y Hy; apply Hf; now right). reflexivity.
Qed.

Lemma TSeq_upto_of_nat (n : nat) :
  TSeq_items (TSeq_upto (Z.of_nat n)) = map Z.of_nat (seq 0 n).
Proof.
  unfold TSeq_items, TSeq_upto. cbn [seq_begin seq_end].
  rewrite Z.sub_0_r, Nat2Z.id. apply map_ext. intros k. lia.
Qed.

Lemma map_nth_seq {A} (l : list A) (d : A) :
  map (fun i => nth i l d) (seq 0 (length l)) = l.
Proof.
  induction l as [|x xs IH]; simpl.
  - reflexivity.
  - f_equal. rewrite <- seq_shift, map_map. exact IH.
Qed.

(** The state after domain tasks that each pin the thread, call the work
    function on their items and unpin. *)
Lemma steps_domain_tasks {A} (items : Z -> list A) (domains : list Z) (w : World A) :
  let w' := steps (fun i w => set_affinity AllNodes
                                (steps log_call (items i) (set_affinity (OnNode i) w)))
                  domains w in
  calls w' = rev (concat (map items domains)) ++ calls w
  /\ (domains <> [] -> affinity w' = AllNodes).
Proof.
  unfold steps. revert w. induction domains as [|i l IH]; intros w.
  - split; [reflexivity | congruence].
  - cbn [fold_left map concat]. destruct (IH (set_affinity AllNodes
        (fold_left (fun w x => log_call x w) (items i) (set_affinity (OnNode i) w))))
      as [Hc Ha].
    split.
    + rewrite Hc. cbn [calls set_affinity].
      pose proof (steps_log_calls (items i) (set_affinity (OnNode i) w)) as E.
      unfold steps in E. rewrite E. cbn [calls set_affinity].
      now rewrite rev_app_distr, <- app_assoc.
    + intros _. destruct l as [|j l']; [reflexivity | apply Ha; discriminate].
Qed.

Section NUMA_vec.
Context {P : Platform} {R T : Type}.
Variables (self : TNUMAExecutor.t) (g : T -> R) (redfunc : list R -> R) (nChunks : Z).

Lemma runOnNode_vec_run (dataRanges : list (list T)) (i : Z) (range : list T)
    (w : World T) :
  nth_error dataRanges (Z.to_nat i) = Some range ->
  TNUMAExecutor.runOnNode_vec self (invoke (fun x => Ret (g x))) dataRanges redfunc
    nChunks i w
  = (Ret (vec_domain_value self g redfunc nChunks range),
     set_affinity AllNodes (steps log_call range (set_affinity (OnNode i) w))).
Proof.
  intros Hnth. unfold TNUMAExecutor.runOnNode_vec, vec_domain_value.
  unfold bind at 1. unfold numa_run_on_node at 1. unfold bind at 1.
  rewrite Hnth. unfold bind at 1. unfold ret at 1.
  destruct (negb (nChunks =? 0));
    rewrite (thread_pool_MapReduce_run (invoke (fun x => Ret (g x))) g log_call)
      by reflexivity; reflexivity.
Qed.

(** The domain tasks of the first [length dataRanges] domains run. *)
Lemma runOnNode_vec_prefix (dataRanges : list (list T)) (w : World T) :
  mapM (TNUMAExecutor.runOnNode_vec self (invoke (fun x => Ret (g x))) dataRanges
          redfunc nChunks)
       (TSeq_items (TSeq_upto (Z.of_nat (length dataRanges)))) w
  = (Ret (map (vec_domain_value self g redfunc nChunks) dataRanges),
     steps (fun i w => set_affinity AllNodes
                         (steps log_call (nth (Z.to_nat i) dataRanges [])
                                (set_affinity (OnNode i) w)))
           (TSeq_items (TSeq_upto (Z.of_nat (length dataRanges)))) w).
Proof.
  rewrite (mapM_run_in _ (fun i => vec_domain_value self g redfunc nChunks (nth (Z.to_nat i) dataRanges []))
             (fun i w => set_affinity AllNodes
                           (steps log_call (nth (Z.to_nat i) dataRanges [])
                                  (set_affinity (OnNode i) w)))).
  - f_equal. f_equal. rewrite TSeq_upto_of_nat, map_map.
    rewrite <- (map_nth_seq dataRanges []) at 2. rewrite map_map.
    apply map_ext. intros j. now rewrite Nat2Z.id.
  - intros i Hi w1. rewrite TSeq_upto_of_nat in Hi. apply in_map_iff in Hi.
    destruct Hi as (j & <- & Hj). apply in_seq in Hj.
    apply runOnNode_vec_run. rewrite Nat2Z.id. apply nth_error_nth'. lia.
Qed.

Lemma domains_ranges (dataRanges : list (list T)) :
  map (fun i => nth (Z.to_nat i) dataRanges [])
      (TSeq_items (TSeq_upto (Z.of_nat (length dataRanges)))) = dataRanges.
Proof.
  rewrite TSeq_upto_of_nat, map_map. rewrite <- (map_nth_seq dataRanges []) at 2.
  apply map_ext. intros j. now rewrite Nat2Z.id.
Qed.
End NUMA_vec.

Section NUMA_vec_results.
Context {P : Platform} {R T : Type}.
Variables (self : TNUMAExecutor.t) (g : T -> R) (redfunc : list R -> R) (nChunks : Z).

(** The ranges of a non-empty vector: how many, and what they hold. *)
Lemma splitData_ranges (vec : list T) :
  vec <> [] ->
  1 <= TNUMAExecutor.fNDomains self ->
  Z.of_nat (length vec) + TNUMAExecutor.fNDomains self - 1 < 2 ^ 32 ->
  let size := Z.of_nat (length vec) in
  let stride := (size + TNUMAExecutor.fNDomains self - 1) / TNUMAExecutor.fNDomains self in
  let k := (size + stride - 1) / stride in
  exists dataRanges : list (list T),
    (forall fuel, (length vec <= fuel)%nat ->
       TNUMAExecutor.splitData self fuel vec = Some dataRanges)
    /\ Z.of_nat (length dataRanges) = k
    /\ concat dataRanges = vec
    /\ 1 <= k <= TNUMAExecutor.fNDomains self
    /\ (k - 1) * stride < size <= k * stride.
Proof.
  intros Hvec HD Hrange size stride k.
  assert (Hsize : 1 <= size) by (destruct vec; [contradiction | unfold size; simpl; lia]).
  destruct (@splitSpans_closed_form self size Hsize HD Hrange) as (Hs & Hk & Hlast & Hrun).
  fold stride in Hs, Hk, Hlast, Hrun. fold k in Hk, Hlast, Hrun.
  exists (map (span_items vec) (stride_spans stride k size)).
  split; [|split; [|split; [|split; [exact Hk | exact Hlast]]]].
  - intros fuel Hfuel. unfold TNUMAExecutor.splitData. fold size.
    rewrite Hrun by (unfold size; lia). reflexivity.
  - unfold stride_spans. rewrite length_map, length_app, length_map, TSeq_items_length.
    cbn [seq_begin seq_end TSeq_upto length]. lia.
  - replace k with (Z.of_nat (Z.to_nat (k - 1)) + 1) by lia.
    rewrite (chain_cover vec (a := 0) (c := size)).
    + rewrite Z.sub_0_r. cbn [Z.to_nat skipn]. unfold size. rewrite Nat2Z.id.
      apply firstn_all.
    + apply stride_spans_chain; [lia|]. rewrite Z2Nat.id by lia. lia.
    + lia.
Qed.

(** The domain tasks of the domains that have a range run one after the
    other; every element of the ranges is passed to the work function
    once, in order. *)
Lemma runOnNode_vec_ranges (dataRanges : list (list T)) (w : World T) :
  exists w1 : World T,
    mapM (TNUMAExecutor.runOnNode_vec self (invoke (fun x => Ret (g x))) dataRanges
            redfunc nChunks)
         (TSeq_items (TSeq_upto (Z.of_nat (length dataRanges)))) w
    = (Ret (map (vec_domain_value self g redfunc nChunks) dataRanges), w1)
    /\ calls w1 = rev (concat dataRanges) ++ calls w
    /\ (dataRanges <> [] -> affinity w1 = AllNodes).
Proof.
  eexists. split; [apply runOnNode_vec_prefix|].
  destruct (steps_domain_tasks (fun i => nth (Z.to_nat i) dataRanges [])
              (TSeq_items (TSeq_upto (Z.of_nat (length dataRanges)))) w) as [Hc Ha].
  rewrite domains_ranges in Hc. split; [exact Hc|].
  intros Hne. apply Ha. intros E. apply (f_equal (@length Z)) in E.
  rewrite TSeq_items_length in E. cbn [seq_begin seq_end TSeq_upto length] in E.
  destruct dataRanges; [contradiction | simpl in E; lia].
Qed.

(** With as many ranges as domains every domain task runs. *)
Lemma numa_vec_domains_run `{!ReductionFunction redfunc} (dataRanges : list (list T))
    (w : World T) :
  dataRanges <> [] ->
  Z.of_nat (length dataRanges) = TNUMAExecutor.fNDomains self ->
  TProcessExecutor.MapReduce (TProcessExecutor.mk (TNUMAExecutor.fNDomains self))
    (TNUMAExecutor.runOnNode_vec self (invoke (fun x => Ret (g x))) dataRanges redfunc
       nChunks)
    (TSeq_items (TSeq_upto (TNUMAExecutor.fNDomains self))) redfunc 0 w
  = (Ret (redfunc (map g (concat dataRanges))),
     mkWorld AllNodes (rev (concat dataRanges) ++ calls w)).
Proof.
  intros Hne Hlen.
  rewrite process_pool_MapReduce_sequential by assumption.
  unfold TSequentialExecutor.MapReduce, TSequentialExecutor.Map.
  rewrite <- Hlen.
  destruct (runOnNode_vec_ranges dataRanges w) as (w1 & Hrun & Hcalls & Haff).
  unfold bind at 1. rewrite Hrun. unfold ret, Reduce. f_equal.
  - f_equal. unfold vec_domain_value.
    rewrite (map_ext _ (fun range => redfunc (map g range)))
      by (intros range; rewrite (@chunked_value _ _ g redfunc _);
          now rewrite chunks_of_concat).
    now rewrite (@chunked_value _ _ g redfunc _).
  - destruct w1 as [a c]. cbn [calls affinity] in *.
    rewrite (Haff Hne), Hcalls. reflexivity.
Qed.


(** X10. The vector overload, when every domain gets a span (the last
    domain's offset [(fNDomains - 1) * stride] lies inside the vector): with
    a work function that always returns and a reduction function that is
    invariant under chunking and insensitive to the order of its arguments,
    the call returns the reduction of the results of all the elements, the
    work function has been called exactly once on every element, and the
    thread is left unpinned. *)
Theorem numa_vec_MapReduce_result (vec : list T) (w : World T) :
  ReductionFunction redfunc ->
  order_insensitive redfunc ->
  vec <> [] ->
  1 <= TNUMAExecutor.fNDomains self ->
  Z.of_nat (length vec) + TNUMAExecutor.fNDomains self - 1 < 2 ^ 32 ->
  (TNUMAExecutor.fNDomains self - 1)
    * ((Z.of_nat (length vec) + TNUMAExecutor.fNDomains self - 1)
         / TNUMAExecutor.fNDomains self) < Z.of_nat (length vec) ->
  exists (m : M T R) (w' : World T),
    (forall fuel, (length vec <= fuel)%nat ->
       TNUMAExecutor.MapReduce_vec self fuel (invoke (fun x => Ret (g x))) vec redfunc
         nChunks = Some m)
    /\ m w = (Ret (redfunc (map g vec)), w')
    /\ Permutation (calls w') (vec ++ calls w)
    /\ affinity w' = AllNodes.
Proof.
  intros RF _ Hvec HD Hrange Hlast.
  destruct (@splitData_ranges vec Hvec HD Hrange)
    as (dataRanges & Hsplit & Hlen & Hcat & Hk & Hks).
  cbv zeta in Hlen, Hk, Hks.
  set (size := Z.of_nat (length vec)) in *.
  set (stride := (size + TNUMAExecutor.fNDomains self - 1) / TNUMAExecutor.fNDomains self) in *.
  set (k := (size + stride - 1) / stride) in *.
  assert (HkD : k = TNUMAExecutor.fNDomains self) by nia.
  eexists _, _. split; [|split; [|split]].
  - intros fuel Hfuel. unfold TNUMAExecutor.MapReduce_vec. rewrite (Hsplit fuel Hfuel).
    reflexivity.
  - assert (Hne : dataRanges <> []) by (intros ->; simpl in Hcat; now subst vec).
    cbv zeta. rewrite (numa_vec_domains_run w Hne) by lia. rewrite Hcat. reflexivity.
  - cbn [calls]. apply Permutation_app_tail, Permutation_sym, Permutation_rev.
  - reflexivity.
Qed.


End NUMA_vec_results.

(** ** The NUMA executor: the [TSeq] overload for any sequence *)

Section SeqGeneral.
Variables (numa : TNUMAExecutor.t) (b e : Z).
Hypothesis D_pos : 1 <= TNUMAExecutor.fNDomains numa.
Hypothesis b_le_e : 0 <= b <= e.
Hypothesis in_range : e - b + TNUMAExecutor.fNDomains numa - 1 < 2 ^ 32.

Lemma seq_stride_general :
  TNUMAExecutor.seq_stride numa (mkTSeq b e)
  = (e - b + TNUMAExecutor.fNDomains numa - 1) / TNUMAExecutor.fNDomains numa.
Proof.
  unfold TNUMAExecutor.seq_stride. cbn [seq_begin seq_end].
  rewrite (@u32_small (e - b + TNUMAExecutor.fNDomains numa - 1)) by lia.
  reflexivity.
Qed.

Lemma seq_stride_bounds :
  let stride := TNUMAExecutor.seq_stride numa (mkTSeq b e) in
  0 <= stride
  /\ e - b <= TNUMAExecutor.fNDomains numa * stride
     <= e - b + TNUMAExecutor.fNDomains numa - 1.
Proof.
  cbv zeta. rewrite seq_stride_general.
  pose proof (Z.div_mod (e - b + TNUMAExecutor.fNDomains numa - 1)
                (TNUMAExecutor.fNDomains numa) ltac:(lia)) as E.
  pose proof (Z.mod_pos_bound (e - b + TNUMAExecutor.fNDomains numa - 1)
                (TNUMAExecutor.fNDomains numa) ltac:(lia)) as B.
  split; [apply Z.div_pos; lia | lia].
Qed.

Lemma domain_sequence_general (i : Z) :
  0 <= i < TNUMAExecutor.fNDomains numa ->
  let stride := TNUMAExecutor.seq_stride numa (mkTSeq b e) in
  TNUMAExecutor.domain_sequence numa (mkTSeq b e) i
  = mkTSeq (Z.max b (i * stride)) (Z.min (i * stride + stride) e).
Proof.
  intros Hi stride. unfold TNUMAExecutor.domain_sequence. fold stride.
  destruct seq_stride_bounds as (H0 & H1 & H2). fold stride in H0, H1, H2.
  cbn [seq_begin seq_end].
  replace ((i + 1) * stride) with (i * stride + stride) by ring.
  rewrite (@u32_small (i * stride)), (@u32_small (i * stride + stride)) by nia.
  reflexivity.
Qed.
End SeqGeneral.

(** X12. The sub-sequences that the [TSeq] overload hands to the domain
    pools, for a sequence [[begin, end)] with [0 <= begin <= end] within the
    [unsigned] range: domain [i] gets [[max(begin, i*stride),
    min((i+1)*stride, end))] with [stride] the ceiling of [(end - begin) /
    fNDomains]. An index lies in the sub-sequence of some domain exactly when
    it lies in [[begin, end)] below [fNDomains * stride], and then in the
    sub-sequence of one domain only: the indices from [fNDomains * stride]
    on are in no sub-sequence, and none is lost when [begin] is 0. The
    sub-sequence of domain [i] is inverted (its end below its begin) exactly
    when [(i+1)*stride < begin] or [end < i*stride], which happens for
    sequences that start at 0 too. *)
Theorem numa_seq_domain_sequences (numa : TNUMAExecutor.t) (b e : Z) :
  1 <= TNUMAExecutor.fNDomains numa ->
  0 <= b <= e ->
  e - b + TNUMAExecutor.fNDomains numa - 1 < 2 ^ 32 ->
  let stride := (e - b + TNUMAExecutor.fNDomains numa - 1) / TNUMAExecutor.fNDomains numa in
  let sub := TNUMAExecutor.domain_sequence numa (mkTSeq b e) in
  (forall i, 0 <= i < TNUMAExecutor.fNDomains numa ->
     sub i = mkTSeq (Z.max b (i * stride)) (Z.min ((i + 1) * stride) e))
  /\ e - b <= TNUMAExecutor.fNDomains numa * stride
  /\ (forall x,
        (exists i, 0 <= i < TNUMAExecutor.fNDomains numa /\ seq_contains (sub i) x)
        <-> b <= x < e /\ x < TNUMAExecutor.fNDomains numa * stride)
  /\ (forall i j x,
        0 <= i < TNUMAExecutor.fNDomains numa ->
        0 <= j < TNUMAExecutor.fNDomains numa ->
        seq_contains (sub i) x -> seq_contains (sub j) x -> i = j)
  /\ (forall i, 0 <= i < TNUMAExecutor.fNDomains numa ->
        (seq_inverted (sub i) <-> (i + 1) * stride < b \/ e < i * stride)).
Proof.
  intros HD Hbe Hr stride sub.
  destruct (@seq_stride_bounds numa b e HD Hbe Hr) as (H0 & H1 & H2).
  rewrite (@seq_stride_general numa b e) in H0, H1, H2 by assumption.
  fold stride in H0, H1, H2.
  assert (Hsub : forall i, 0 <= i < TNUMAExecutor.fNDomains numa ->
            sub i = mkTSeq (Z.max b (i * stride)) (Z.min (i * stride + stride) e)).
  { intros i Hi. unfold sub. rewrite (@domain_sequence_general numa b e) by assumption.
    rewrite (@seq_stride_general numa b e) by assumption. reflexivity. }
  split; [|split; [lia|split; [|split]]].
  - intros i Hi. rewrite (Hsub i Hi). f_equal. f_equal. ring.
  - intros x. split.
    + intros (i & Hi & Hx). rewrite (Hsub i Hi) in Hx.
      unfold seq_contains in Hx. cbn [seq_begin seq_end] in Hx.
      assert (i * stride + stride <= TNUMAExecutor.fNDomains numa * stride) by nia.
      lia.
    + intros [Hx HxD].
      assert (Hs : 0 < stride) by nia.
      pose proof (Z.div_mod x stride ltac:(lia)) as E.
      pose proof (Z.mod_pos_bound x stride Hs) as B.
      assert (Hq : 0 <= x / stride) by (apply Z.div_pos; lia).
      exists (x / stride). split; [nia|].
      rewrite Hsub by nia. unfold seq_contains. cbn [seq_begin seq_end]. nia.
  - intros i j x Hi Hj Hxi Hxj. rewrite (Hsub i Hi) in Hxi. rewrite (Hsub j Hj) in Hxj.
    unfold seq_contains in Hxi, Hxj. cbn [seq_begin seq_end] in Hxi, Hxj.
    assert (Hi1 : i * stride <= x < i * stride + stride) by lia.
    assert (Hj1 : j * stride <= x < j * stride + stride) by lia.
    destruct (Z.lt_trichotomy i j) as [Hlt|[Heq|Hgt]]; [|exact Heq|].
    + assert ((i + 1) * stride <= j * stride) by (apply Z.mul_le_mono_nonneg_r; lia).
      lia.
    + assert ((j + 1) * stride <= i * stride) by (apply Z.mul_le_mono_nonneg_r; lia).
      lia.
  - intros i Hi. rewrite (Hsub i Hi). unfold seq_inverted. cbn [seq_begin seq_end].
    replace ((i + 1) * stride) with (i * stride + stride) by ring. lia.
Qed.

(** ** The fit evaluators: options and weights *)

Section FitUtil_extras.
Context {P : Platform} {T D : Type} {Ar : Arith T D}.
Variable setAutomaticChunking : Z -> Z.

(** The dispatch of [EvalChi2] reads the size of the data only, and adds
    its messages after those reported before. *)
Lemma chi2_sum_frame (func : FitUtil.Model T D) (data : FitUtil.BinData)
    (executionPolicy nChunks : Z) :
  exists (res : T) (count : Z -> Z) (msgs : list (string * string)),
    forall (data' : FitUtil.BinData) (st : FitUtil.FitState),
      FitUtil.b_Size data' = FitUtil.b_Size data ->
      FitUtil.chi2_sum setAutomaticChunking func data' executionPolicy nChunks st
      = (Ret res, FitUtil.mkFitState (count (FitUtil.nPoints st))
                    (FitUtil.errors st ++ msgs)).
Proof.
  unfold FitUtil.chi2_sum. cbv zeta.
  destruct (executionPolicy =? 0).
  { eexists _, (fun n => u32 (n + _)), []. intros data' st ->.
    rewrite app_nil_r. reflexivity. }
  destruct (executionPolicy =? 1).
  - destruct (numa_MapReduce_seq_run (TNUMAExecutor.ctor 0)
                (FitUtil.chi2_at func)
                (mkTSeq 0 (FitUtil.b_Size data / VectorSize))
                (accumulate vadd vzero)
                (if negb (nChunks =? 0) then nChunks
                 else setAutomaticChunking (FitUtil.b_Size data / VectorSize))
                (mkWorld AllNodes [])) as [r Hr].
    eexists r, (fun n => u32 (n + _)), []. intros data' st ->.
    unfold FitUtil.run_counted. rewrite Hr, app_nil_r. reflexivity.
  - eexists vzero, (fun n => n), [_]. intros data' st _. reflexivity.
Qed.

(** X15. When the fit options ask for expected errors or for the integral in
    the bin, which the vectorized [EvalChi2] does not support, the message
    [Aborting operation] is reported and nothing is aborted: the call goes on
    and returns the value, the [nPoints] and the further messages of the
    same call on data without these options. *)
Theorem EvalChi2_unsupported_options_not_aborted (func : FitUtil.Model T D)
    (data plain : FitUtil.BinData) (executionPolicy nChunks : Z)
    (st : FitUtil.FitState) :
  FitUtil.fExpErrors data || FitUtil.fIntegral data = true ->
  FitUtil.b_Size plain = FitUtil.b_Size data ->
  FitUtil.fExpErrors plain = false ->
  FitUtil.fIntegral plain = false ->
  exists (v : D) (msgs : list (string * string)),
    FitUtil.EvalChi2 setAutomaticChunking func plain executionPolicy nChunks st
    = (Ret v, FitUtil.mkFitState (FitUtil.b_Size data) (FitUtil.errors st ++ msgs))
    /\ FitUtil.EvalChi2 setAutomaticChunking func data executionPolicy nChunks st
       = (Ret v,
          FitUtil.mkFitState (FitUtil.b_Size data)
            (FitUtil.errors st
             ++ ("FitUtil::EvaluateChi2"%string,
                 "The vectorized implementation doesn't support Integrals, BinVolume or ExpErrors
. Aborting operation."%string) :: msgs)).
Proof.
  intros Hopt Hsize He Hi.
  destruct (chi2_sum_frame func data executionPolicy nChunks) as (res & count & msgs & Hrun).
  exists (lanes_sum res), msgs. unfold FitUtil.EvalChi2. cbv zeta.
  rewrite He, Hi. cbn [orb].
  replace (FitUtil.fExpErrors data || FitUtil.fIntegral data || FitUtil.fExpErrors data)
    with true by (destruct (FitUtil.fExpErrors data), (FitUtil.fIntegral data);
                  simpl in *; congruence).
  rewrite (Hrun plain _ Hsize), (Hrun data _ eq_refl), Hsize.
  unfold FitUtil.set_nPoints, FitUtil.Error. cbn [FitUtil.nPoints FitUtil.errors].
  rewrite <- app_assoc. split; reflexivity.
Qed.

(** A property of the results that every reduction keeps holds of what the
    [TSeq] overload returns. *)
Lemma numa_MapReduce_seq_invariant {R} (Q : R -> Prop) (numa : TNUMAExecutor.t)
    (g : Z -> R) (args : TSeq) (redfunc : list R -> R) (nChunks : Z) (w : World Z) :
  (forall i, Q (g i)) ->
  (forall objs, Forall Q objs -> Q (redfunc objs)) ->
  exists (r : R) (w' : World Z),
    TNUMAExecutor.MapReduce_seq numa (invoke (fun i => Ret (g i))) args redfunc nChunks w
    = (Ret r, w') /\ Q r.
Proof.
  intros Hg Hred. unfold TNUMAExecutor.MapReduce_seq.
  rewrite (process_pool_MapReduce_run _ (domain_value_seq numa g args redfunc nChunks)
             (domain_step_seq numa args))
    by (intros; apply runOnNode_seq_run).
  eexists _, _. split; [reflexivity|].
  apply Hred, Forall_map, Forall_forall. intros chunk _.
  apply Hred, Forall_map, Forall_forall. intros i _.
  unfold domain_value_seq.
  apply Hred, Forall_map, Forall_forall. intros chunk' _.
  apply Hred, Forall_map, Forall_forall. intros j _. apply Hg.
Qed.

Lemma accumulate_no_weights (objs : list (LikelihoodAux T)) :
  vadd vzero vzero = vzero ->
  Forall (fun l => weight l = vzero /\ weight2 l = vzero) objs ->
  weight (accumulate FitUtil.laux_add FitUtil.laux_zero objs) = vzero
  /\ weight2 (accumulate FitUtil.laux_add FitUtil.laux_zero objs) = vzero.
Proof.
  intros H0 Hall. unfold accumulate.
  assert (Hgen : forall acc : LikelihoodAux T,
             weight acc = vzero /\ weight2 acc = vzero ->
             weight (fold_left FitUtil.laux_add objs acc) = vzero
             /\ weight2 (fold_left FitUtil.laux_add objs acc) = vzero).
  { induction Hall as [|l ls [Hw Hw2] _ IH]; intros acc [Ha Ha2]; cbn [fold_left].
    - now split.
    - apply IH. unfold FitUtil.laux_add. cbn [weight weight2].
      rewrite Ha, Ha2, Hw, Hw2. now split. }
  apply Hgen. split; reflexivity.
Qed.

(** X16. In the extended likelihood the sums of the weights and of the
    squared weights stay empty under every execution policy, because
    [mapFunction] fills [W] and [W2] only when the likelihood is not
    extended; so with squared weights ([iWeight == 2]) the effective weight
    [sumW2 / sumW] of the extended term is the quotient of two empty sums,
    whatever the weights of the data. *)
Theorem EvalLogL_extended_weight_sums_empty (func : FitUtil.Model T D)
    (data : FitUtil.UnBinData) (iWeight executionPolicy nChunks : Z)
    (st : FitUtil.FitState) :
  vadd vzero vzero = vzero ->
  exists (sums : LikelihoodAux T) (st1 : FitUtil.FitState),
    FitUtil.logl_sums setAutomaticChunking func data iWeight true executionPolicy
      nChunks st = (Ret sums, st1)
    /\ weight sums = vzero
    /\ weight2 sums = vzero
    /\ (forall nuTot : D,
          iWeight = 2 ->
          FitUtil.logl_nuTot func data = Some nuTot ->
          FitUtil.EvalLogL setAutomaticChunking func data iWeight true executionPolicy
            nChunks st
          = (Ret (dneg (dadd (lanes_sum (logvalue sums))
                             (dneg (dmul (ddiv (lanes_sum vzero) (lanes_sum vzero))
                                         nuTot)))),
             FitUtil.set_nPoints 0 st1)).
Proof.
  intros H0.
  assert (Hmap : forall i, weight (FitUtil.logl_mapValue func iWeight true i) = vzero
                           /\ weight2 (FitUtil.logl_mapValue func iWeight true i) = vzero).
  { intros i. unfold FitUtil.logl_mapValue. cbv zeta. cbn [negb].
    destruct (0 <? iWeight); [destruct (iWeight =? 2)|]; split; reflexivity. }
  assert (Hsums : exists sums st1,
             FitUtil.logl_sums setAutomaticChunking func data iWeight true executionPolicy
               nChunks st = (Ret sums, st1)
             /\ weight sums = vzero /\ weight2 sums = vzero).
  { unfold FitUtil.logl_sums. cbv zeta.
    destruct (executionPolicy =? 0).
    { eexists _, _. split; [reflexivity|].
      apply accumulate_no_weights; [exact H0|]. apply Forall_map, Forall_forall.
      intros i _. apply Hmap. }
    destruct (executionPolicy =? 1).
    { destruct (@numa_MapReduce_seq_invariant (LikelihoodAux T)
                  (fun l : LikelihoodAux T => weight l = vzero /\ weight2 l = vzero)
                  (TNUMAExecutor.ctor 4) (FitUtil.logl_mapValue func iWeight true)
                  (mkTSeq 0 (FitUtil.ub_Size data / VectorSize))
                  (accumulate FitUtil.laux_add FitUtil.laux_zero)
                  (if negb (nChunks =? 0) then nChunks
                   else setAutomaticChunking (FitUtil.ub_Size data / VectorSize))
                  (mkWorld AllNodes []) Hmap
                  (fun objs => @accumulate_no_weights objs H0))
        as (r & w' & Hr & Hq).
      eexists r, _. unfold FitUtil.run_counted. rewrite Hr. split; [reflexivity | exact Hq]. }
    destruct (executionPolicy =? 2); eexists _, _; (split; [reflexivity|]);
      split; reflexivity. }
  destruct Hsums as (sums & st1 & Hrun & Hw & Hw2).
  exists sums, st1. split; [exact Hrun|]. split; [exact Hw|]. split; [exact Hw2|].
  intros nuTot -> HnuTot. unfold FitUtil.EvalLogL. rewrite Hrun, HnuTot, Hw, Hw2.
  reflexivity.
Qed.
End FitUtil_extras.

(** ** The further properties on examples *)

Lemma facade_Map_in_order_witness :
  TExecutor.ctor (P := two_node_machine) kSerial 0 = Ret serial_executor
  /\ TExecutor.Map (P := two_node_machine) serial_executor
       (invoke (fun x => Ret (x * x))) [1; 2; 3] (mkWorld AllNodes [])
     = (Ret [1; 4; 9], mkWorld AllNodes [3; 2; 1]).
Proof.
  assert (H : TExecutor.ctor (P := two_node_machine) kSerial 0 = Ret serial_executor)
    by reflexivity.
  destruct (@facade_Map_in_order two_node_machine Z Z kSerial 0 serial_executor
              (fun x => x * x) [1; 2; 3] (mkWorld AllNodes [])
              (fun i => i) (mkTSeq 0 2) (mkWorld AllNodes [])
              7 2 (mkWorld AllNodes []) H) as (A & _ & _).
  exact (conj H A).
Defined.

Lemma facade_MapReduce_reduces_all_witness :
  TExecutor.ctor (P := two_node_machine) kMultithread 0 = Ret multithread_executor
  /\ exists w' : World Z,
       TExecutor.MapReduce (P := two_node_machine) multithread_executor
         (invoke (fun x => Ret (x * x))) [1; 2; 3; 4] sumZ 2 (mkWorld AllNodes [])
       = (Ret 30, w')
       /\ Permutation (calls w') [1; 2; 3; 4].
Proof.
  assert (H : TExecutor.ctor (P := two_node_machine) kMultithread 0
              = Ret multithread_executor) by reflexivity.
  destruct (@facade_MapReduce_reduces_all two_node_machine Z Z kMultithread 0
              multithread_executor (fun x => x * x) [1; 2; 3; 4] sumZ 2
              (mkWorld AllNodes []) sumZ_ReductionFunction sumZ_order_insensitive H)
    as (w' & Hrun & Hcalls & _).
  refine (conj H _). exists w'. exact (conj Hrun Hcalls).
Defined.

Lemma facade_failure_propagates_witness :
  let f := fun x : Z => if x =? 2 then Throw (work_failure 2) else Ret x in
  TExecutor.ctor (P := two_node_machine) kMultiprocess 0 = Ret multiprocess_executor
  /\ In 2 [1; 2; 3]
  /\ f 2 = Throw (work_failure 2)
  /\ exists (e' : Exn) (y : Z),
       In y [1; 2; 3] /\ f y = Throw e'
       /\ fst (TExecutor.Map (P := two_node_machine) multiprocess_executor (invoke f)
                 [1; 2; 3] (mkWorld AllNodes [])) = Throw e'
       /\ fst (TExecutor.MapReduce (P := two_node_machine) multiprocess_executor
                 (invoke f) [1; 2; 3] sumZ 0 (mkWorld AllNodes [])) = Throw e'.
Proof.
  intros f.
  assert (H : TExecutor.ctor (P := two_node_machine) kMultiprocess 0
              = Ret multiprocess_executor) by reflexivity.
  assert (Hin : In 2 [1; 2; 3]) by (right; left; reflexivity).
  assert (Hf : f 2 = Throw (work_failure 2)) by reflexivity.
  exact (conj H (conj Hin (conj Hf
           (@facade_failure_propagates two_node_machine Z Z kMultiprocess 0
              multiprocess_executor f [1; 2; 3] sumZ 0 (mkWorld AllNodes []) 2
              (work_failure 2) H Hin Hf)))).
Defined.

Lemma splitData_empty_vector_witness :
  1 <= 2 < 2 ^ 32
  /\ TNUMAExecutor.splitData (TNUMAExecutor.mk 2 4) 1 (@nil Z) = Some [[]].
Proof.
  assert (H : 1 <= TNUMAExecutor.fNDomains (TNUMAExecutor.mk 2 4) < 2 ^ 32)
    by (cbn [TNUMAExecutor.fNDomains]; lia).
  destruct (@splitData_empty_vector Z (TNUMAExecutor.mk 2 4) 0 H) as [_ B].
  exact (conj H B).
Defined.

Lemma splitData_span_sizes_witness :
  [1; 2; 3] <> []
  /\ 1 <= 2
  /\ 3 + 2 - 1 < 2 ^ 32
  /\ exists dataRanges : list (list Z),
       TNUMAExecutor.splitData (TNUMAExecutor.mk 2 4) 3 [1; 2; 3] = Some dataRanges
       /\ map (fun range => Z.of_nat (length range)) dataRanges = [2; 1].
Proof.
  assert (H1 : [1; 2; 3] <> []) by discriminate.
  assert (H2 : 1 <= TNUMAExecutor.fNDomains (TNUMAExecutor.mk 2 4))
    by (cbn [TNUMAExecutor.fNDomains]; lia).
  assert (H3 : Z.of_nat (length [1; 2; 3]) + TNUMAExecutor.fNDomains (TNUMAExecutor.mk 2 4) - 1
               < 2 ^ 32) by (cbn; lia).
  destruct (@splitData_span_sizes Z (TNUMAExecutor.mk 2 4) [1; 2; 3] H1 H2 H3)
    as (dataRanges & Hrun & _ & Hlen & _).
  refine (conj H1 (conj H2 (conj H3 _))).
  exists dataRanges. exact (conj (Hrun 3%nat (Nat.le_refl 3)) Hlen).
Defined.

Lemma numa_vec_MapReduce_result_witness :
  [1; 2; 3] <> []
  /\ (2 - 1) * ((3 + 2 - 1) / 2) < 3
  /\ exists (m : M Z Z) (w' : World Z),
       TNUMAExecutor.MapReduce_vec (P := two_node_machine) (TNUMAExecutor.mk 2 4) 3
         (invoke (fun x => Ret (x * x))) [1; 2; 3] sumZ 0 = Some m
       /\ m (mkWorld AllNodes []) = (Ret 14, w')
       /\ Permutation (calls w') [1; 2; 3]
       /\ affinity w' = AllNodes.
Proof.
  assert (H1 : [1; 2; 3] <> []) by discriminate.
  assert (H2 : 1 <= TNUMAExecutor.fNDomains (TNUMAExecutor.mk 2 4))
    by (cbn [TNUMAExecutor.fNDomains]; lia).
  assert (H3 : Z.of_nat (length [1; 2; 3]) + TNUMAExecutor.fNDomains (TNUMAExecutor.mk 2 4) - 1
               < 2 ^ 32) by (cbn; lia).
  assert (H4 : (TNUMAExecutor.fNDomains (TNUMAExecutor.mk 2 4) - 1)
               * ((Z.of_nat (length [1; 2; 3])
                   + TNUMAExecutor.fNDomains (TNUMAExecutor.mk 2 4) - 1)
                  / TNUMAExecutor.fNDomains (TNUMAExecutor.mk 2 4))
               < Z.of_nat (length [1; 2; 3])) by (cbn; lia).
  destruct (@numa_vec_MapReduce_result two_node_machine Z Z (TNUMAExecutor.mk 2 4)
              (fun x => x * x) sumZ 0 [1; 2; 3] (mkWorld AllNodes [])
              sumZ_ReductionFunction sumZ_order_insensitive H1 H2 H3 H4)
    as (m & w' & Hrun & Hres & Hcalls & Haff).
  refine (conj H1 (conj H4 _)).
  exists m, w'. exact (conj (Hrun 3%nat (Nat.le_refl 3)) (conj Hres (conj Hcalls Haff))).
Defined.


Lemma numa_seq_domain_sequences_witness :
  0 <= 0 <= 5
  /\ 5 - 0 + 4 - 1 < 2 ^ 32
  /\ TNUMAExecutor.domain_sequence (TNUMAExecutor.mk 4 8) (mkTSeq 0 5) 3 = mkTSeq 6 5
  /\ seq_inverted (TNUMAExecutor.domain_sequence (TNUMAExecutor.mk 4 8) (mkTSeq 0 5) 3).
Proof.
  assert (H1 : 1 <= TNUMAExecutor.fNDomains (TNUMAExecutor.mk 4 8))
    by (cbn [TNUMAExecutor.fNDomains]; lia).
  assert (H2 : 0 <= 0 <= 5) by lia.
  assert (H3 : 5 - 0 + TNUMAExecutor.fNDomains (TNUMAExecutor.mk 4 8) - 1 < 2 ^ 32)
    by (cbn; lia).
  assert (Hi : 0 <= 3 < TNUMAExecutor.fNDomains (TNUMAExecutor.mk 4 8))
    by (cbn [TNUMAExecutor.fNDomains]; lia).
  destruct (@numa_seq_domain_sequences (TNUMAExecutor.mk 4 8) 0 5 H1 H2 H3)
    as (Hsub & _ & _ & _ & Hinv).
  refine (conj H2 (conj H3 (conj (Hsub 3 Hi) _))).
  apply (proj2 (Hinv 3 Hi)). right. cbn. lia.
Defined.

Lemma EvalChi2_unsupported_options_not_aborted_witness :
  let func := FitUtil.mkModel (fun i => i) (fun _ => 1) (fun i => i * i) false
                (fun _ => 1) 1 in
  let data := FitUtil.mkBinData 3 false true in
  let plain := FitUtil.mkBinData 3 false false in
  FitUtil.fExpErrors data || FitUtil.fIntegral data = true
  /\ exists (v : Z) (msgs : list (string * string)),
       FitUtil.EvalChi2 (P := two_node_machine) (Ar := Z_Arith) (fun n => n) func plain
         0 0 (FitUtil.mkFitState 0 [])
       = (Ret v, FitUtil.mkFitState 3 msgs)
       /\ FitUtil.EvalChi2 (P := two_node_machine) (Ar := Z_Arith) (fun n => n) func data
            0 0 (FitUtil.mkFitState 0 [])
          = (Ret v,
             FitUtil.mkFitState 3
               (("FitUtil::EvaluateChi2"%string,
                 "The vectorized implementation doesn't support Integrals, BinVolume or ExpErrors
. Aborting operation."%string) :: msgs)).
Proof.
  intros func data plain.
  assert (H1 : FitUtil.fExpErrors data || FitUtil.fIntegral data = true) by reflexivity.
  exact (conj H1
           (@EvalChi2_unsupported_options_not_aborted two_node_machine Z Z Z_Arith
              (fun n => n) func data plain 0 0 (FitUtil.mkFitState 0 [])
              H1 eq_refl eq_refl eq_refl)).
Defined.

Lemma EvalLogL_extended_weight_sums_empty_witness :
  let func := FitUtil.mkModel (fun i => i) (fun _ => 2) (fun i => i * i) false
                (fun _ => 1) 1 in
  let data := FitUtil.mkUnBinData 3 1 in
  0 + 0 = 0
  /\ exists (sums : LikelihoodAux Z) (st1 : FitUtil.FitState),
       FitUtil.logl_sums (P := two_node_machine) (Ar := Z_Arith) (fun n => n) func data
         2 true 0 0 (FitUtil.mkFitState 0 []) = (Ret sums, st1)
       /\ weight sums = 0
       /\ weight2 sums = 0.
Proof.
  intros func data.
  assert (H0 : 0 + 0 = 0) by reflexivity.
  destruct (@EvalLogL_extended_weight_sums_empty two_node_machine Z Z Z_Arith
              (fun n => n) func data 2 0 0 (FitUtil.mkFitState 0 []) H0)
    as (sums & st1 & Hrun & Hw & Hw2 & _).
  refine (conj H0 _). exists sums, st1. exact (conj Hrun (conj Hw Hw2)).
Defined.


(** * The backends against each other *)

(** ** Reductions of any chunking, in any order *)

(** For a reduction function that is invariant under chunking and
    insensitive to the order of its arguments, reducing the partial values
    of the chunks gives the reduction of all the results, however the items
    were distributed over the chunks and in whatever order the partial
    values arrive. *)
Lemma reduction_of_any_chunking {A R} (g : A -> R) (redfunc : list R -> R)
    (args : list A) (chunks : list (list A)) (partials : list R) :
  ReductionFunction redfunc ->
  order_insensitive redfunc ->
  Permutation (concat chunks) args ->
  Permutation partials (map (fun chunk => Reduce (map g chunk) redfunc) chunks) ->
  Reduce partials redfunc = redfunc (map g args).
Proof.
  intros RF OI Hchunks Hpartials. unfold Reduce in *.
  rewrite (OI _ _ Hpartials).
  rewrite <- (map_map (map g) redfunc), chunk_invariant, <- concat_map.
  apply OI, Permutation_map, Hchunks.
Qed.

Section Facade_outcomes.
Context {P : Platform} {I R : Type}.
Variables (execPolicy : ExecutionPolicy) (n : Z) (self : TExecutor.t).
Variables (f : I -> Outcome R) (args : list I) (redfunc : list R -> R) (nChunks : Z).
Context `{!ReductionFunction redfunc}.
Hypothesis constructed : TExecutor.ctor execPolicy n = Ret self.

Lemma facade_MapReduce_returns (g : I -> R) (w : World I) :
  (forall x, In x args -> f x = Ret (g x)) ->
  fst (TExecutor.MapReduce self (invoke f) args redfunc nChunks w)
  = Ret (redfunc (map g args)).
Proof.
  intros Hg.
  rewrite (MapReduce_sequential _ _ (invoke f) args nChunks constructed w).
  unfold TSequentialExecutor.MapReduce, TSequentialExecutor.Map, bind.
  rewrite (mapM_run_in (invoke f) g log_call)
    by (intros x Hx w1; unfold invoke; now rewrite (Hg x Hx)).
  reflexivity.
Qed.

Lemma facade_MapReduce_fails (x : I) (e : Exn) (w : World I) :
  In x args -> f x = Throw e ->
  exists e' : Exn,
    fst (TExecutor.MapReduce self (invoke f) args redfunc nChunks w) = Throw e'.
Proof.
  intros Hin Hx.
  rewrite (MapReduce_sequential _ _ (invoke f) args nChunks constructed w).
  unfold TSequentialExecutor.MapReduce, TSequentialExecutor.Map, bind.
  destruct (@mapM_invoke_throws I R f args x e w Hin Hx) as (e' & w' & y & Hrun & _ & _).
  rewrite Hrun. exists e'. reflexivity.
Qed.
End Facade_outcomes.

Section Backend_equivalence.
Context {P : Platform} {I R : Type}.

(** C2, as amended (backend equivalence). For a work function, an input
    and a reduction function that is invariant under chunking and
    insensitive to the order of its arguments (the integer sum is one), the
    executors constructed with the Serial, the MultiThread and the
    MultiProcess policy produce equal final results of [MapReduce]: when the
    work function returns on every item, each of them returns the reduction
    of the results of all the items, which is also the reduction of the
    partial values of any chunking of the items taken in any order; when the
    work function fails on an item, the call fails under each of them. *)
Theorem backend_equivalence_for_reductions (f : I -> Outcome R) (args : list I)
    (redfunc : list R -> R) (nChunks : Z) (nS nT nP : Z)
    (serial multithread multiprocess : TExecutor.t) (w : World I) :
  ReductionFunction redfunc ->
  order_insensitive redfunc ->
  TExecutor.ctor kSerial nS = Ret serial ->
  TExecutor.ctor kMultithread nT = Ret multithread ->
  TExecutor.ctor kMultiprocess nP = Ret multiprocess ->
  (forall g : I -> R,
     (forall x, In x args -> f x = Ret (g x)) ->
     fst (TExecutor.MapReduce serial (invoke f) args redfunc nChunks w)
     = Ret (redfunc (map g args))
     /\ fst (TExecutor.MapReduce multithread (invoke f) args redfunc nChunks w)
        = Ret (redfunc (map g args))
     /\ fst (TExecutor.MapReduce multiprocess (invoke f) args redfunc nChunks w)
        = Ret (redfunc (map g args))
     /\ (forall (chunks : list (list I)) (partials : list R),
           Permutation (concat chunks) args ->
           Permutation partials (map (fun chunk => Reduce (map g chunk) redfunc) chunks) ->
           Reduce partials redfunc = redfunc (map g args)))
  /\ (forall (x : I) (e : Exn),
        In x args -> f x = Throw e ->
        exists e1 e2 e3 : Exn,
          fst (TExecutor.MapReduce serial (invoke f) args redfunc nChunks w) = Throw e1
          /\ fst (TExecutor.MapReduce multithread (invoke f) args redfunc nChunks w)
             = Throw e2
          /\ fst (TExecutor.MapReduce multiprocess (invoke f) args redfunc nChunks w)
             = Throw e3).
Proof.
  intros RF OI HS HT HP. split.
  - intros g Hg.
    split; [exact (@facade_MapReduce_returns _ _ _ _ _ _ f args redfunc nChunks RF HS g w
                     Hg)|].
    split; [exact (@facade_MapReduce_returns _ _ _ _ _ _ f args redfunc nChunks RF HT g w
                     Hg)|].
    split; [exact (@facade_MapReduce_returns _ _ _ _ _ _ f args redfunc nChunks RF HP g w
                     Hg)|].
    intros chunks partials Hchunks Hpartials.
    exact (@reduction_of_any_chunking _ _ g redfunc args chunks partials RF OI Hchunks
             Hpartials).
  - intros x e Hin Hx.
    destruct (@facade_MapReduce_fails _ _ _ _ _ _ f args redfunc nChunks RF HS x e w Hin
                Hx)
      as [e1 H1].
    destruct (@facade_MapReduce_fails _ _ _ _ _ _ f args redfunc nChunks RF HT x e w Hin
                Hx)
      as [e2 H2].
    destruct (@facade_MapReduce_fails _ _ _ _ _ _ f args redfunc nChunks RF HP x e w Hin
                Hx)
      as [e3 H3].
    exists e1, e2, e3. exact (conj H1 (conj H2 H3)).
Qed.
End Backend_equivalence.

Lemma backend_equivalence_for_reductions_witness :
  let f := fun x : Z => Ret (x * x) in
  TExecutor.ctor (P := two_node_machine) kSerial 0 = Ret serial_executor
  /\ TExecutor.ctor (P := two_node_machine) kMultithread 0 = Ret multithread_executor
  /\ TExecutor.ctor (P := two_node_machine) kMultiprocess 0 = Ret multiprocess_executor
  /\ fst (TExecutor.MapReduce (P := two_node_machine) serial_executor (invoke f)
            [1; 2; 3; 4] sumZ 2 (mkWorld AllNodes [])) = Ret 30
  /\ fst (TExecutor.MapReduce (P := two_node_machine) multithread_executor (invoke f)
            [1; 2; 3; 4] sumZ 2 (mkWorld AllNodes [])) = Ret 30
  /\ fst (TExecutor.MapReduce (P := two_node_machine) multiprocess_executor (invoke f)
            [1; 2; 3; 4] sumZ 2 (mkWorld AllNodes [])) = Ret 30.
Proof.
  intros f.
  assert (HS : TExecutor.ctor (P := two_node_machine) kSerial 0 = Ret serial_executor)
    by reflexivity.
  assert (HT : TExecutor.ctor (P := two_node_machine) kMultithread 0
               = Ret multithread_executor) by reflexivity.
  assert (HP : TExecutor.ctor (P := two_node_machine) kMultiprocess 0
               = Ret multiprocess_executor) by reflexivity.
  destruct (@backend_equivalence_for_reductions two_node_machine Z Z f [1; 2; 3; 4] sumZ 2
              0 0 0 serial_executor multithread_executor multiprocess_executor
              (mkWorld AllNodes []) sumZ_ReductionFunction sumZ_order_insensitive
              HS HT HP) as [Hret _].
  destruct (Hret (fun x => x * x) (fun x _ => eq_refl)) as (H1 & H2 & H3 & _).
  exact (conj HS (conj HT (conj HP (conj H1 (conj H2 H3))))).
Defined.

(** C2 as stated fails: counting the results is a reduction function, and
    with it the executor of the MultiThread policy, which reduces chunk by
    chunk and then reduces the partial values, returns the number of chunks
    where the executor of the Serial policy returns the number of items. *)
Lemma backend_equivalence_fails_for_counting :
  let count := fun objs : list Z => Z.of_nat (length objs) in
  let func := invoke (fun x : Z => Ret (x * x)) in
  TExecutor.ctor (P := two_node_machine) kSerial 0 = Ret serial_executor
  /\ TExecutor.ctor (P := two_node_machine) kMultithread 0 = Ret multithread_executor
  /\ fst (TExecutor.MapReduce (P := two_node_machine) serial_executor func
            [1; 2; 3; 4] count 2 (mkWorld AllNodes [])) = Ret 4
  /\ fst (TExecutor.MapReduce (P := two_node_machine) multithread_executor func
            [1; 2; 3; 4] count 2 (mkWorld AllNodes [])) = Ret 2
  /\ fst (TExecutor.MapReduce (P := two_node_machine) serial_executor func
            [1; 2; 3; 4] count 2 (mkWorld AllNodes []))
     <> fst (TExecutor.MapReduce (P := two_node_machine) multithread_executor func
               [1; 2; 3; 4] count 2 (mkWorld AllNodes [])).
Proof.
  vm_compute. split; [reflexivity|]. split; [reflexivity|]. split; [reflexivity|].
  split; [reflexivity | discriminate].
Qed.

(** ** The NUMA executor against the facade *)

Section Backend_dependence.
Context {P : Platform}.

Lemma facade_nTimes_sum (execPolicy : ExecutionPolicy) (n : Z) (self : TExecutor.t)
    (nTimes v nChunks : Z) (w : World unit) :
  TExecutor.ctor execPolicy n = Ret self ->
  0 <= nTimes ->
  fst (TExecutor.MapReduce_nTimes self (invoke (fun _ : unit => Ret v) tt) nTimes sumZ
         nChunks w)
  = Ret (nTimes * v).
Proof.
  intros H Hn.
  change (TExecutor.MapReduce_nTimes self (invoke (fun _ : unit => Ret v) tt) nTimes sumZ
            nChunks)
    with (TExecutor.MapReduce self (fun _ : unit => invoke (fun _ : unit => Ret v) tt)
            (nTimes_items nTimes) sumZ nChunks).
  rewrite (MapReduce_sequential _ _ (fun _ : unit => invoke (fun _ : unit => Ret v) tt)
             (nTimes_items nTimes) nChunks H w).
  unfold TSequentialExecutor.MapReduce, TSequentialExecutor.Map, bind.
  rewrite (mapM_run (fun _ : unit => invoke (fun _ : unit => Ret v) tt) (fun _ => v)
             (fun _ w => log_call tt w)) by reflexivity.
  unfold ret, Reduce. cbn [fst].
  rewrite map_const_repeat, sumZ_repeat, nTimes_items_length, Z2Nat.id by assumption.
  reflexivity.
Qed.

Lemma numa_nTimes_sum (numa : TNUMAExecutor.t) (nTimes v nChunks : Z) (w : World unit) :
  0 <= TNUMAExecutor.fNDomains numa ->
  0 <= nTimes ->
  fst (TNUMAExecutor.MapReduce_nTimes numa (invoke (fun _ : unit => Ret v) tt) nTimes sumZ
         nChunks w)
  = Ret (TNUMAExecutor.fNDomains numa * (nTimes * v)).
Proof.
  intros HD Hn. unfold TNUMAExecutor.MapReduce_nTimes.
  rewrite (process_pool_MapReduce_run _ (fun _ => Z.of_nat (Z.to_nat nTimes) * v)
             (domain_step_nTimes nTimes)) by (intros; apply runOnNode_nTimes_run).
  cbn [fst].
  rewrite (chunked_value (redfunc := sumZ) (fun _ : Z => Z.of_nat (Z.to_nat nTimes) * v)),
    chunks_of_concat.
  rewrite map_const_repeat, sumZ_repeat, TSeq_items_length. cbn [seq_end seq_begin TSeq_upto].
  f_equal. rewrite Z.sub_0_r, !Z2Nat.id by assumption. reflexivity.
Qed.

(** C7 (independence of the chunk count and of the backend), on the code.
    With the integer sum and a work function returning the constant [v],
    [MapReduce] over [nTimes] items returns [nTimes * v] on the facade,
    under every policy and for every chunk hint, and [fNDomains * (nTimes *
    v)] on the NUMA executor, for every chunk hint: on each backend the
    result is independent of the chunk hint, and between the backends it
    differs as soon as there are two NUMA domains. *)
Theorem result_depends_on_backend (execPolicy : ExecutionPolicy) (n : Z)
    (self : TExecutor.t) (numa : TNUMAExecutor.t) (nTimes v : Z)
    (nChunks nChunks' : Z) (w : World unit) :
  TExecutor.ctor execPolicy n = Ret self ->
  0 <= TNUMAExecutor.fNDomains numa ->
  0 <= nTimes ->
  fst (TExecutor.MapReduce_nTimes self (invoke (fun _ : unit => Ret v) tt) nTimes sumZ
         nChunks w)
  = Ret (nTimes * v)
  /\ fst (TNUMAExecutor.MapReduce_nTimes numa (invoke (fun _ : unit => Ret v) tt) nTimes
            sumZ nChunks' w)
     = Ret (TNUMAExecutor.fNDomains numa * (nTimes * v))
  /\ (TNUMAExecutor.fNDomains numa <> 1 -> nTimes * v <> 0 ->
      fst (TNUMAExecutor.MapReduce_nTimes numa (invoke (fun _ : unit => Ret v) tt) nTimes
             sumZ nChunks' w)
      <> fst (TExecutor.MapReduce_nTimes self (invoke (fun _ : unit => Ret v) tt) nTimes
                sumZ nChunks w)).
Proof.
  intros H HD Hn.
  pose proof (@facade_nTimes_sum execPolicy n self nTimes v nChunks w H Hn) as HF.
  pose proof (@numa_nTimes_sum numa nTimes v nChunks' w HD Hn) as HN.
  split; [exact HF|]. split; [exact HN|].
  intros HD1 Hv. rewrite HF, HN. intros E. inversion E as [E'].
  apply HD1. nia.
Qed.
End Backend_dependence.

(** On a machine with two NUMA nodes, 1000 items and the integer sum: the
    facade returns 1000 and the NUMA executor 2000, whatever the chunk
    hints. *)
Lemma result_depends_on_backend_witness :
  let numa := TNUMAExecutor.ctor (P := two_node_machine) 8 in
  TExecutor.ctor (P := two_node_machine) kMultithread 0 = Ret multithread_executor
  /\ TNUMAExecutor.fNDomains numa = 2
  /\ 0 <= 1000
  /\ fst (TExecutor.MapReduce_nTimes (P := two_node_machine) multithread_executor
            (invoke (fun _ : unit => Ret 1) tt) 1000 sumZ 4 (mkWorld AllNodes []))
     = Ret 1000
  /\ fst (TNUMAExecutor.MapReduce_nTimes (P := two_node_machine) numa
            (invoke (fun _ : unit => Ret 1) tt) 1000 sumZ 4 (mkWorld AllNodes []))
     = Ret 2000.
Proof.
  intros numa.
  assert (H : TExecutor.ctor (P := two_node_machine) kMultithread 0
              = Ret multithread_executor) by reflexivity.
  assert (HD : 0 <= TNUMAExecutor.fNDomains numa) by (cbn; lia).
  assert (Hn : 0 <= 1000) by lia.
  destruct (@result_depends_on_backend two_node_machine kMultithread 0 multithread_executor
              numa 1000 1 4 4 (mkWorld AllNodes []) H HD Hn) as (HF & HN & _).
  exact (conj H (conj eq_refl (conj Hn (conj HF HN)))).
Defined.

(** ** The NUMA executor on an empty vector *)

Section Empty_vector.
Context {P : Platform} {I R T : Type}.

(** C8 (empty input), on the code. The vector overload of the NUMA
    executor's [MapReduce] on an empty vector: [splitData] returns the one
    empty span, the fan-out still hands every domain index below
    [fNDomains] to a domain task, and the task of every domain [i >= 1]
    indexes [dataRanges[i]] past the end of the one span, whatever the work
    function and the reduction function. With two NUMA domains or more the
    call on zero work items therefore reaches undefined behaviour, not a
    defined empty-input error. *)
Theorem numa_empty_vector_reads_past_ranges (self : TNUMAExecutor.t)
    (func : T -> M I R) (redfunc : list R -> R) (nChunks : Z) (fuel : nat)
    (w : World I) :
  2 <= TNUMAExecutor.fNDomains self < 2 ^ 32 ->
  TNUMAExecutor.splitData self (S fuel) (@nil T) = Some [[]]
  /\ TNUMAExecutor.MapReduce_vec self (S fuel) func [] redfunc nChunks
     = Some (TProcessExecutor.MapReduce
               (TProcessExecutor.mk (TNUMAExecutor.fNDomains self))
               (TNUMAExecutor.runOnNode_vec self func [[]] redfunc nChunks)
               (TSeq_items (TSeq_upto (TNUMAExecutor.fNDomains self))) redfunc 0)
  /\ (forall i : Z,
        1 <= i < TNUMAExecutor.fNDomains self ->
        In i (TSeq_items (TSeq_upto (TNUMAExecutor.fNDomains self)))
        /\ TNUMAExecutor.runOnNode_vec self func [[]] redfunc nChunks i w
           = (Throw (out_of_range i), set_affinity (OnNode i) w)).
Proof.
  intros HD.
  assert (E : TNUMAExecutor.splitData self (S fuel) (@nil T) = Some [[]]).
  { unfold TNUMAExecutor.splitData, TNUMAExecutor.splitSpans. cbn [length Z.of_nat].
    change (u32 0) with 0.
    replace (0 + TNUMAExecutor.fNDomains self - 1) with (TNUMAExecutor.fNDomains self - 1)
      by lia.
    rewrite (@u32_small (TNUMAExecutor.fNDomains self - 1)) by lia.
    rewrite Z.div_small by lia. reflexivity. }
  split; [exact E|]. split.
  - unfold TNUMAExecutor.MapReduce_vec. rewrite E. reflexivity.
  - intros i Hi. split.
    + unfold TSeq_items, TSeq_upto. cbn [seq_begin seq_end]. apply in_map_iff.
      exists (Z.to_nat i). split; [lia|]. apply in_seq. lia.
    + apply runOnNode_vec_out_of_range. cbn [length]. lia.
Qed.
End Empty_vector.

Lemma numa_empty_vector_reads_past_ranges_witness :
  2 <= 2 < 2 ^ 32
  /\ TNUMAExecutor.splitData (TNUMAExecutor.mk 2 4) 1 (@nil Z) = Some [[]]
  /\ In 1 (TSeq_items (TSeq_upto 2))
  /\ TNUMAExecutor.runOnNode_vec (P := two_node_machine) (TNUMAExecutor.mk 2 4)
       (invoke (fun x : Z => Ret (x * x))) [[]] sumZ 0 1 (mkWorld AllNodes [])
     = (Throw (out_of_range 1), mkWorld (OnNode 1) []).
Proof.
  assert (H : 2 <= TNUMAExecutor.fNDomains (TNUMAExecutor.mk 2 4) < 2 ^ 32)
    by (cbn [TNUMAExecutor.fNDomains]; lia).
  assert (H1 : 1 <= 1 < TNUMAExecutor.fNDomains (TNUMAExecutor.mk 2 4))
    by (cbn [TNUMAExecutor.fNDomains]; lia).
  destruct (@numa_empty_vector_reads_past_ranges two_node_machine Z Z Z
              (TNUMAExecutor.mk 2 4) (invoke (fun x : Z => Ret (x * x))) sumZ 0 0%nat
              (mkWorld AllNodes []) H) as (Hsplit & _ & Htasks).
  destruct (Htasks 1 H1) as [Hin Hrun].
  exact (conj H (conj Hsplit (conj Hin Hrun))).
Defined.
